(** * Region-grounded report generation: evaluation core

    A shallow embedding of the metric-accumulation code of
    [src/full_model/evaluate_full_model.py] and of the top-region selector of
    [src/object_detector/custom_roi_heads.py], with the properties of the
    specification stated and settled over it.

    Conventions of the embedding.
    - A float is an exact rational ([Qc]); where the source can produce an
      IEEE special value (a division by zero, an initial best loss of
      infinity) the value has type [tfloat]. Sums are exact: the rounding
      of a float32 accumulation, and with it the effect of the order in
      which terms are added, is not modelled.
    - A tensor of shape [batch_size x 36] is a list of rows, each row a list;
      element-wise tensor operations are [zip_with]; the source raises on a
      shape mismatch, and the theorems carry the shapes as hypotheses.
    - A library metric object (torchmetrics, evaluate) is the log of the
      updates it received: the library itself is outside the repository. *)

From Stdlib Require Import QArith Qcanon ZArith.
From stdpp Require Import base numbers list option strings pretty.

Local Open Scope Qc_scope.

(** ** Numbers *)

(** The taxonomy has 36 regions (the [36] literals of the source). *)
Definition num_regions : nat := 36.

(** Result of a float operation that may leave the finite values. *)
Inductive tfloat : Type :=
  | TNum (q : Qc)
  | TPosInf
  | TNegInf
  | TNaN.

Global Instance tfloat_eq_dec : EqDecision tfloat.
Proof. solve_decision. Defined.

Definition Qcltb (x y : Qc) : bool := bool_decide (x < y).

(** [torch.maximum] and [torch.minimum] on one element. *)
Definition Qcmax (x y : Qc) : Qc := if Qcltb x y then y else x.
Definition Qcmin (x y : Qc) : Qc := if Qcltb y x then y else x.

(** Float division: [x / 0] is [nan] for [x = 0] and an infinity otherwise. *)
Definition tdiv (a b : Qc) : tfloat :=
  if decide (b = 0) then
    (if decide (a = 0) then TNaN else if Qcltb 0 a then TPosInf else TNegInf)
  else TNum (a / b).

(** Float addition on [tfloat]. *)
Definition tadd (a b : tfloat) : tfloat :=
  match a, b with
  | TNaN, _ | _, TNaN => TNaN
  | TPosInf, TNegInf | TNegInf, TPosInf => TNaN
  | TPosInf, _ | _, TPosInf => TPosInf
  | TNegInf, _ | _, TNegInf => TNegInf
  | TNum x, TNum y => TNum (x + y)
  end.

(** Float comparison [a < b]: false as soon as one side is [nan]. *)
Definition tltb (a b : tfloat) : bool :=
  match a, b with
  | TNaN, _ | _, TNaN => false
  | TNum x, TNum y => Qcltb x y
  | TNegInf, TNegInf => false
  | TNegInf, _ => true
  | _, TNegInf => false
  | TPosInf, _ => false
  | TNum _, TPosInf => true
  end.

Definition sum_Qc (l : list Qc) : Qc := foldr Qcplus 0 l.
Definition sum_tfloat (l : list tfloat) : tfloat := foldr tadd (TNum 0) l.

Definition Qc_of_bool (b : bool) : Qc := if b then 1 else 0.
Definition Qc_of_nat (n : nat) : Qc := Qc_of_Z (Z.of_nat n).

(** ** Tensors of shape [batch_size x 36] *)

(** [torch.sum(t, dim=0)] of a [batch_size x 36] tensor: a vector of 36. *)
Definition sum_dim0 (t : list (list Qc)) : list Qc :=
  foldr (zip_with Qcplus) (replicate num_regions 0) t.

(** The shape [n x 36]. *)
Definition shape {A} (n : nat) (t : list (list A)) : Prop :=
  length t = n ∧ Forall (λ row, length row = num_regions) t.

(** The entries of region [r], one per image of the batch. *)
Definition column {A} (r : nat) (t : list (list A)) : list A :=
  omap (λ row, row !! r) t.

(** ** Overlap quality: intersection and union areas *)

Record box : Type := Box { bx0 : Qc; by0 : Qc; bx1 : Qc; by1 : Qc }.

(** [compute_box_area]: [(x1 - x0) * (y1 - y0)]. *)
Definition compute_box_area (b : box) : Qc :=
  (bx1 b - bx0 b) * (by1 b - by0 b).

(** The box spanned by the intersection corners. *)
Definition intersection_box (pred gt : box) : box :=
  Box (Qcmax (bx0 pred) (bx0 gt)) (Qcmax (by0 pred) (by0 gt))
      (Qcmin (bx1 pred) (bx1 gt)) (Qcmin (by1 pred) (by1 gt)).

(** [valid_intersection] of one entry: the corners are strictly ordered and
    the region was detected. *)
Definition valid_intersection (pred gt : box) (detected : bool) : bool :=
  let ib := intersection_box pred gt in
  (Qcltb (bx0 ib) (bx1 ib) && Qcltb (by0 ib) (by1 ib)) && detected.

(** The union area of one entry, computed (as in the source) from the
    intersection area before it is masked. *)
Definition entry_union_area (pred gt : box) : Qc :=
  (compute_box_area pred + compute_box_area gt)
  - compute_box_area (intersection_box pred gt).

(** The intersection area of one entry after [torch.where]. *)
Definition entry_intersection_area (pred gt : box) (detected : bool) : Qc :=
  if valid_intersection pred gt detected
  then compute_box_area (intersection_box pred gt)
  else 0.

(** [compute_intersection_and_union_area_per_region]: the two per-region sums
    of one batch, for three tensors of one shape [batch_size x 36] (on other
    shapes torch broadcasts or raises). *)
Definition compute_intersection_and_union_area_per_region
    (pred_boxes gt_boxes : list (list box)) (class_detected : list (list bool))
    : list Qc * list Qc :=
  let union_area := zip_with (zip_with entry_union_area) pred_boxes gt_boxes in
  let intersection_area :=
    zip_with (λ pg d, zip_with (λ (e : box * box) dd, entry_intersection_area e.1 e.2 dd) pg d)
      (zip_with zip pred_boxes gt_boxes) class_detected in
  (sum_dim0 intersection_area, sum_dim0 union_area).

Record obj_detector_scores : Type := ObjDetectorScores {
  sum_intersection_area_per_region : list Qc;
  sum_union_area_per_region : list Qc;
  sum_region_detected : list Qc
}.

(** The three [torch.zeros(36)] of [get_val_losses_and_other_metrics]. *)
Definition obj_detector_scores_init : obj_detector_scores :=
  ObjDetectorScores (replicate num_regions 0) (replicate num_regions 0)
                    (replicate num_regions 0).

(** [update_object_detector_metrics]. *)
Definition update_object_detector_metrics (s : obj_detector_scores)
    (top_region_boxes gt_boxes : list (list box))
    (class_detected : list (list bool)) : obj_detector_scores :=
  let region_detected_batch := sum_dim0 (map (map Qc_of_bool) class_detected) in
  let '(intersection_area_per_region_batch, union_area_per_region_batch) :=
    compute_intersection_and_union_area_per_region
      top_region_boxes gt_boxes class_detected in
  ObjDetectorScores
    (zip_with Qcplus (sum_intersection_area_per_region s) intersection_area_per_region_batch)
    (zip_with Qcplus (sum_union_area_per_region s) union_area_per_region_batch)
    (zip_with Qcplus (sum_region_detected s) region_detected_batch).

(** The averaged detector scores computed after the batch loop. *)
Record obj_detector_report : Type := ObjDetectorReport {
  avg_iou_per_region : list tfloat;
  avg_num_detected_regions_per_image : tfloat;
  avg_detections_per_region : list tfloat
}.

Definition reduce_obj_detector_scores (s : obj_detector_scores) (num_images : nat)
    : obj_detector_report :=
  let avg := map (λ d, tdiv d (Qc_of_nat num_images)) (sum_region_detected s) in
  ObjDetectorReport
    (zip_with tdiv (sum_intersection_area_per_region s) (sum_union_area_per_region s))
    (sum_tfloat avg)
    avg.

(** The entries of region [r] of a batch: predicted box, ground-truth box
    and detected flag, one triple per image. *)
Definition region_entries (r : nat) (pred_boxes gt_boxes : list (list box))
    (class_detected : list (list bool)) : list (box * box * bool) :=
  zip (zip (column r pred_boxes) (column r gt_boxes)) (column r class_detected).

(** ** Boolean-mask indexing *)

(** [xs[mask]] on flat arrays: the elements whose mask entry is true, in
    order. numpy and torch raise when the lengths differ. *)
Fixpoint masked_select {A} (mask : list bool) (xs : list A) : list A :=
  match mask, xs with
  | m :: mask, x :: xs =>
      if m then x :: masked_select mask xs else masked_select mask xs
  | _, _ => []
  end.

(** [t[mask]] on two [batch_size x 36] tensors: row-major flattening. *)
Definition tensor_index {A} (t : list (list A)) (mask : list (list bool)) : list A :=
  masked_select (concat mask) (concat t).

(** [~t] on a boolean tensor. *)
Definition tensor_not (t : list (list bool)) : list (list bool) :=
  map (map negb) t.

(** ** Binary decisions: precision and recall objects *)

(** A torchmetrics object, as the log of its forward calls
    [(preds, target)], oldest first. *)
Definition metric : Type := list (list bool * list bool).

Definition metric_call (m : metric) (preds target : list bool) : metric :=
  m ++ [(preds, target)].

Record pr_scores : Type := PrScores { precision : metric; recall : metric }.

Definition pr_scores_init : pr_scores := PrScores [] [].

Definition pr_update (s : pr_scores) (preds target : list bool) : pr_scores :=
  PrScores (metric_call (precision s) preds target)
           (metric_call (recall s) preds target).

Record region_selection_scores : Type := RegionSelectionScores {
  rs_all : pr_scores;
  rs_normal : pr_scores;
  rs_abnormal : pr_scores
}.

Definition region_selection_scores_init : region_selection_scores :=
  RegionSelectionScores pr_scores_init pr_scores_init pr_scores_init.

(** [update_region_abnormal_metrics]. *)
Definition update_region_abnormal_metrics (region_abnormal_scores : pr_scores)
    (predicted_abnormal_regions region_is_abnormal class_detected : list (list bool))
    : pr_scores :=
  let detected_predicted_abnormal_regions :=
    tensor_index predicted_abnormal_regions class_detected in
  let detected_region_is_abnormal :=
    tensor_index region_is_abnormal class_detected in
  pr_update region_abnormal_scores
    detected_predicted_abnormal_regions detected_region_is_abnormal.

(** [update_region_selection_metrics]. *)
Definition update_region_selection_metrics (s : region_selection_scores)
    (selected_regions region_has_sentence region_is_abnormal : list (list bool))
    : region_selection_scores :=
  let normal_selected_regions :=
    tensor_index selected_regions (tensor_not region_is_abnormal) in
  let normal_region_has_sentence :=
    tensor_index region_has_sentence (tensor_not region_is_abnormal) in
  let abnormal_selected_regions :=
    tensor_index selected_regions region_is_abnormal in
  let abnormal_region_has_sentence :=
    tensor_index region_has_sentence region_is_abnormal in
  RegionSelectionScores
    (pr_update (rs_all s) (concat selected_regions) (concat region_has_sentence))
    (pr_update (rs_normal s) normal_selected_regions normal_region_has_sentence)
    (pr_update (rs_abnormal s) abnormal_selected_regions abnormal_region_has_sentence).

(** The confusion counts an update carries: how many positions of the call
    have prediction [p] and ground truth [a]. *)
Definition confusion_count (p a : bool) (call : list bool * list bool) : nat :=
  length (filter (λ e, e = (p, a)) (zip call.1 call.2)).

(** The region-level entries of a batch for the abnormality decision, in
    row-major order: prediction, ground truth, and whether the region was
    detected. *)
Definition abnormal_entries
    (predicted_abnormal_regions region_is_abnormal class_detected : list (list bool))
    : list (bool * bool * bool) :=
  zip (zip (concat predicted_abnormal_regions) (concat region_is_abnormal))
      (concat class_detected).

(** ** Text quality: BLEU and BERTScore objects *)

(** An [evaluate] metric object, as the log of its [add_batch] calls
    [(predictions, references)], oldest first. *)
Definition text_metric : Type := list (list string * list string).

Definition add_batch (predictions references : list string) (m : text_metric)
    : text_metric :=
  m ++ [(predictions, references)].

(** The metrics of one subset: a dict from metric name to metric object. *)
Definition subset_scores : Type := list (string * text_metric).

(** [for score in d.values(): score.add_batch(...)]. *)
Definition add_batch_all (predictions references : list string)
    (d : subset_scores) : subset_scores :=
  map (λ kv, (kv.1, add_batch predictions references kv.2)) d.

Record language_model_scores : Type := LanguageModelScores {
  lm_all : subset_scores;
  lm_normal : subset_scores;
  lm_abnormal : subset_scores
}.

(** The five metric objects of a subset, as [evaluate_language_model] loads
    them. *)
Definition subset_scores_init : subset_scores :=
  [("bleu_1", []); ("bleu_2", []); ("bleu_3", []); ("bleu_4", []);
   ("bert_score", [])].

Definition language_model_scores_init : language_model_scores :=
  LanguageModelScores subset_scores_init subset_scores_init subset_scores_init.

(** [get_sents_for_normal_abnormal_selected_regions]. *)
Definition get_sents_for_normal_abnormal_selected_regions
    (generated_sentences_for_selected_regions
     reference_sentences_for_selected_regions : list string)
    (selected_regions region_is_abnormal : list (list bool))
    : list string * list string * list string * list string :=
  let selected_region_is_abnormal :=
    tensor_index region_is_abnormal selected_regions in
  let not_abnormal := map negb selected_region_is_abnormal in
  (masked_select not_abnormal generated_sentences_for_selected_regions,
   masked_select selected_region_is_abnormal generated_sentences_for_selected_regions,
   masked_select not_abnormal reference_sentences_for_selected_regions,
   masked_select selected_region_is_abnormal reference_sentences_for_selected_regions).

(** [update_language_model_scores]. *)
Definition update_language_model_scores (s : language_model_scores)
    (generated_sentences_for_selected_regions
     reference_sentences_for_selected_regions : list string)
    (selected_regions region_is_abnormal : list (list bool))
    : language_model_scores :=
  let all' :=
    add_batch_all generated_sentences_for_selected_regions
                  reference_sentences_for_selected_regions (lm_all s) in
  let '(gen_normal, gen_abnormal, ref_normal, ref_abnormal) :=
    get_sents_for_normal_abnormal_selected_regions
      generated_sentences_for_selected_regions
      reference_sentences_for_selected_regions
      selected_regions region_is_abnormal in
  let normal' :=
    if decide (length ref_normal ≠ 0%nat)
    then add_batch_all gen_normal ref_normal (lm_normal s)
    else lm_normal s in
  let abnormal' :=
    if decide (length ref_abnormal ≠ 0%nat)
    then add_batch_all gen_abnormal ref_abnormal (lm_abnormal s)
    else lm_abnormal s in
  LanguageModelScores all' normal' abnormal'.

(** [get_ref_sentences_for_selected_regions]. *)
Definition get_ref_sentences_for_selected_regions
    (reference_sentences : list (list string))
    (selected_regions : list (list bool)) : list string :=
  tensor_index reference_sentences selected_regions.

Definition newline : string := String (Ascii.ascii_of_nat 10) EmptyString.

(** The text [write_sentences_to_file] writes for one pair. *)
Definition sentence_pair_text (gen_sent ref_sent : string) : string :=
  ("Generated sentence: " +:+ gen_sent +:+ newline)
  +:+ ("Reference sentence: "
       +:+ (if decide (ref_sent ≠ "#") then ref_sent else "")
       +:+ newline +:+ newline).

Record sentences_to_save : Type := SentencesToSave {
  generated_sentences : list string;
  reference_sentences : list string
}.

(** [write_sentences_to_file]: the contents of the file written. *)
Definition write_sentences_to_file (d : sentences_to_save) : string :=
  foldr String.append ""
    (zip_with sentence_pair_text (generated_sentences d) (reference_sentences d)).

(** All reference strings the metric objects of a subset have received. *)
Definition fed_references (d : subset_scores) : list string :=
  concat (map (λ kv : string * text_metric, concat (kv.2).*2) d).

(** The constants of [run_configurations.py] this module imports. *)
Record run_configurations : Type := RunConfigurations {
  BATCH_SIZE : nat;
  NUM_BATCHES_OF_GENERATED_SENTENCES_TO_SAVE_TO_FILE : nat;
  NUM_SENTENCES_TO_GENERATE_FOR_EVALUATION : nat;
  NUM_IMAGES_TO_PLOT : nat
}.

(** One batch of the generation loop: the fields of the batch it reads and
    what the model and the tokenizer return for it. *)
Record lm_batch : Type := LmBatch {
  lb_region_is_abnormal : list (list bool);
  lb_reference_sentences : list (list string);
  lb_selected_regions : list (list bool);
  lb_generated_sentences_for_selected_regions : list string
}.

(** The loop of [evaluate_language_model], from batch number [num_batch] on;
    [n] is [num_batches_to_process_for_sentence_generation]. Plotting is a
    sink and is left out. *)
Fixpoint evaluate_language_model_loop (cfg : run_configurations) (n num_batch : nat)
    (val_dl : list lm_batch) (scores : language_model_scores)
    (to_save : sentences_to_save) : language_model_scores * sentences_to_save :=
  match val_dl with
  | [] => (scores, to_save)
  | batch :: val_dl =>
      if decide (n ≤ num_batch)%nat then (scores, to_save)
      else
        let generated := lb_generated_sentences_for_selected_regions batch in
        let reference_sentences_for_selected_regions :=
          get_ref_sentences_for_selected_regions
            (lb_reference_sentences batch) (lb_selected_regions batch) in
        let to_save :=
          if decide (num_batch < NUM_BATCHES_OF_GENERATED_SENTENCES_TO_SAVE_TO_FILE cfg)%nat
          then SentencesToSave
                 (generated_sentences to_save ++ generated)
                 (reference_sentences to_save ++ reference_sentences_for_selected_regions)
          else to_save in
        let scores :=
          update_language_model_scores scores generated
            reference_sentences_for_selected_regions
            (lb_selected_regions batch) (lb_region_is_abnormal batch) in
        evaluate_language_model_loop cfg n (S num_batch) val_dl scores to_save
  end.

(** [evaluate_language_model]: the metric objects as they are when the final
    scores are computed, and the contents of the file of sentences. [None] is
    the [ZeroDivisionError] of [// BATCH_SIZE]. *)
Definition evaluate_language_model (cfg : run_configurations)
    (val_dl : list lm_batch) : option (language_model_scores * string) :=
  guard (BATCH_SIZE cfg ≠ 0%nat);;
  let n := (NUM_SENTENCES_TO_GENERATE_FOR_EVALUATION cfg / BATCH_SIZE cfg)%nat in
  let '(scores, to_save) :=
    evaluate_language_model_loop cfg n 0 val_dl language_model_scores_init
      (SentencesToSave [] []) in
  Some (scores, write_sentences_to_file to_save).

(** ** Validation losses and the batch loop *)

(** One validation batch: the fields the loop reads and the outputs of the
    forward pass of the model on it. *)
Record val_batch : Type := ValBatch {
  vb_batch_size : nat;
  vb_gt_boxes : list (list box);
  vb_region_has_sentence : list (list bool);
  vb_region_is_abnormal : list (list bool);
  vb_obj_detector_loss_dict : list Qc;
  vb_classifier_loss_region_selection : Qc;
  vb_classifier_loss_region_abnormal : Qc;
  vb_language_model_loss : Qc;
  vb_top_region_boxes : list (list box);
  vb_class_detected : list (list bool);
  vb_selected_regions : list (list bool);
  vb_predicted_abnormal_regions : list (list bool)
}.

(** [d[key]] on a dict of losses; [None] is the [KeyError]. *)
Fixpoint dict_get (key : string) (d : list (string * Qc)) : option Qc :=
  match d with
  | [] => None
  | kv :: d => if decide (kv.1 = key) then Some kv.2 else dict_get key d
  end.

(** The dict of validation losses, in insertion order. *)
Definition val_losses_dict_init : list (string * Qc) :=
  [("total_loss", 0); ("obj_detector_loss", 0); ("region_selection_loss", 0);
   ("region_abnormal_loss", 0); ("language_model_loss", 0)].

(** [list_of_losses] of one batch. The forward pass returns the four
    losses of the object detector; were the dict empty, Python's [sum] would
    be the integer 0 and the loop would fail at [loss.item()], so a batch of
    a pass has at least one detector loss. *)
Definition list_of_losses (b : val_batch) : list Qc :=
  let obj_detector_losses := sum_Qc (vb_obj_detector_loss_dict b) in
  let total_loss :=
    obj_detector_losses + vb_classifier_loss_region_selection b
    + vb_classifier_loss_region_abnormal b + vb_language_model_loss b in
  [total_loss; obj_detector_losses; vb_classifier_loss_region_selection b;
   vb_classifier_loss_region_abnormal b; vb_language_model_loss b].

Record val_state : Type := ValState {
  vs_val_losses_dict : list (string * Qc);
  vs_num_images : nat;
  vs_obj_detector_scores : obj_detector_scores;
  vs_region_selection_scores : region_selection_scores;
  vs_region_abnormal_scores : pr_scores
}.

Definition val_state_init : val_state :=
  ValState val_losses_dict_init 0 obj_detector_scores_init
           region_selection_scores_init pr_scores_init.

(** The body of the batch loop of [get_val_losses_and_other_metrics]. *)
Definition val_step (st : val_state) (b : val_batch) : val_state :=
  let batch_size := vb_batch_size b in
  ValState
    (zip_with (λ (kv : string * Qc) loss, (kv.1, kv.2 + loss * Qc_of_nat batch_size))
       (vs_val_losses_dict st) (list_of_losses b))
    (vs_num_images st + batch_size)
    (update_object_detector_metrics (vs_obj_detector_scores st)
       (vb_top_region_boxes b) (vb_gt_boxes b) (vb_class_detected b))
    (update_region_selection_metrics (vs_region_selection_scores st)
       (vb_selected_regions b) (vb_region_has_sentence b) (vb_region_is_abnormal b))
    (update_region_abnormal_metrics (vs_region_abnormal_scores st)
       (vb_predicted_abnormal_regions b) (vb_region_is_abnormal b)
       (vb_class_detected b)).

Record val_result : Type := ValResult {
  vr_val_losses_dict : list (string * Qc);
  vr_obj_detector_scores : obj_detector_report;
  vr_region_selection_scores : region_selection_scores;
  vr_region_abnormal_scores : pr_scores
}.

(** [get_val_losses_and_other_metrics]. [None] is the [ZeroDivisionError] of
    [/= len(val_dl)] on an empty loader. The precision and recall objects are
    returned as they are when [compute] is called on them. *)
Definition get_val_losses_and_other_metrics (val_dl : list val_batch)
    : option val_result :=
  let st := foldl val_step val_state_init val_dl in
  guard (length val_dl ≠ 0%nat);;
  let val_losses_dict :=
    map (λ kv : string * Qc, (kv.1, kv.2 / Qc_of_nat (length val_dl)))
        (vs_val_losses_dict st) in
  Some (ValResult val_losses_dict
          (reduce_obj_detector_scores (vs_obj_detector_scores st) (vs_num_images st))
          (vs_region_selection_scores st)
          (vs_region_abnormal_scores st)).

(** All rows of flags the loop has seen, batch after batch. *)
Definition all_class_detected (val_dl : list val_batch) : list (list bool) :=
  concat (map vb_class_detected val_dl).

(** The number of images of a pass. *)
Definition total_images (val_dl : list val_batch) : nat :=
  sum_list (map vb_batch_size val_dl).

(** The loss number [j] of [list_of_losses] of a batch (0 is the total
    loss). *)
Definition batch_loss (j : nat) (b : val_batch) : Qc :=
  default 0 (list_of_losses b !! j).

(** The sum over the batches of batch loss times batch size. *)
Definition weighted_loss_sum (j : nat) (val_dl : list val_batch) : Qc :=
  sum_Qc (map (λ b, batch_loss j b * Qc_of_nat (vb_batch_size b)) val_dl).

(** ** The best checkpoint *)

(** Rounding of a non-negative rational to the nearest integer, ties to
    even. *)
Definition round_half_even (q : Qc) : Z :=
  let n := Qnum q in
  let d := Z.pos (Qden q) in
  let f := (n / d)%Z in
  let r := (n mod d)%Z in
  if (2 * r <? d)%Z then f
  else if (d <? 2 * r)%Z then (f + 1)%Z
  else if Z.even f then f else (f + 1)%Z.

(** The format [:.3f]. *)
Definition format_3f (x : tfloat) : string :=
  match x with
  | TNaN => "nan"
  | TPosInf => "inf"
  | TNegInf => "-inf"
  | TNum q =>
      let a := if Qcltb q 0 then - q else q in
      let n := round_half_even (a * Qc_of_Z 1000) in
      (if Qcltb q 0 then "-" else "")
      +:+ pretty (n / 1000)%Z +:+ "."
      +:+ pretty (n / 100 mod 10)%Z +:+ pretty (n / 10 mod 10)%Z
      +:+ pretty (n mod 10)%Z
  end.

(** The separator [/], character 47. *)
Definition sep : Ascii.ascii := Ascii.ascii_of_nat 47.

Definition starts_with_sep (s : string) : bool :=
  match s with
  | String c _ => bool_decide (c = sep)
  | EmptyString => false
  end.

Fixpoint ends_with_sep (s : string) : bool :=
  match s with
  | EmptyString => false
  | String c EmptyString => bool_decide (c = sep)
  | String _ s => ends_with_sep s
  end.

(** [os.path.join] of two components (POSIX). *)
Definition os_path_join (a b : string) : string :=
  if starts_with_sep b then b
  else if bool_decide (a = "") || ends_with_sep a then a +:+ b
  else a +:+ "/" +:+ b.

Section evaluate_model.
(** The type of [model.state_dict()]. *)
Context {model_state : Type}.

Record run_params : Type := RunParams {
  epoch : Z;
  steps_taken : nat;
  overall_steps_taken : nat;
  weights_folder_path : string;
  lowest_val_loss : tfloat;
  best_epoch : option Z;
  best_model_save_path : option string;
  best_model_state : option model_state
}.

(** The name of the checkpoint file. *)
Definition checkpoint_file_name (loss : tfloat) (ep : Z) : string :=
  "val_loss_" +:+ format_3f loss +:+ "_epoch_" +:+ pretty ep +:+ ".pth".

(** [evaluate_model], as far as [run_params] and the train losses go.
    [val_dl] is the loader as the validation pass meets it, [lm_val_dl] the
    same loader as the generation loop meets it. [None] is an exception: the
    [ZeroDivisionError] of the normalisations, or the [KeyError] of a loss
    type looked up in a dict that does not have it (in [write_losses] and in
    the two reads of [total_loss]). The tensorboard writer, the scheduler of
    the learning rate and the console are sinks and are left out. *)
Definition evaluate_model (state_dict : model_state)
    (train_losses_dict : list (string * Qc)) (cfg : run_configurations)
    (val_dl : list val_batch) (lm_val_dl : list lm_batch)
    (rp : run_params) : option (list (string * Qc) * run_params) :=
  guard (train_losses_dict = [] ∨ steps_taken rp ≠ 0%nat);;
  let train_losses_dict :=
    map (λ kv : string * Qc, (kv.1, kv.2 / Qc_of_nat (steps_taken rp)))
        train_losses_dict in
  res ← get_val_losses_and_other_metrics val_dl;
  _ ← evaluate_language_model cfg lm_val_dl;
  _ ← mapM (λ kv : string * Qc, dict_get kv.1 (vr_val_losses_dict res))
           train_losses_dict;
  _ ← dict_get "total_loss" train_losses_dict;
  total_val_loss ← dict_get "total_loss" (vr_val_losses_dict res);
  let total_val_loss := TNum total_val_loss in
  if tltb total_val_loss (lowest_val_loss rp) then
    Some (train_losses_dict,
          RunParams (epoch rp) (steps_taken rp) (overall_steps_taken rp)
            (weights_folder_path rp)
            total_val_loss
            (Some (epoch rp))
            (Some (os_path_join (weights_folder_path rp)
                     (checkpoint_file_name total_val_loss (epoch rp))))
            (Some state_dict))
  else Some (train_losses_dict, rp).
End evaluate_model.
Global Arguments run_params : clear implicits.

(** ** The top-region selector *)

(** [torch.argmax] of a vector: the index of the first maximal value, from a
    running best [(best_i, best)]; [i] is the index of the head of [l]. *)
Fixpoint argmax_from (best_i : nat) (best : Qc) (i : nat) (l : list Qc) : nat :=
  match l with
  | [] => best_i
  | x :: l =>
      if Qcltb best x then argmax_from i x (S i) l
      else argmax_from best_i best (S i) l
  end.

(** [torch.argmax] along a dimension of size 0 raises. *)
Definition argmax (l : list Qc) : option nat :=
  match l with
  | [] => None
  | x :: l => Some (argmax_from 0 x 1 l)
  end.

(** [one_hot(c, num_classes=36)] of one class index; it raises on an index
    that is not below [num_classes]. *)
Definition one_hot (c : nat) : option (list Qc) :=
  guard (c < num_regions)%nat;;
  Some (map (λ j, if decide (j = c) then 1 else 0) (seq 0 num_regions)).

(** [torch.split(l, sizes, dim=0)]: the sizes have to sum to the length. *)
Fixpoint split_sizes {A} (l : list A) (sizes : list nat) : option (list (list A)) :=
  match sizes with
  | [] => match l with [] => Some [] | _ => None end
  | n :: sizes =>
      guard (n ≤ length l)%nat;;
      rest ← split_sizes (drop n l) sizes;
      Some (take n l :: rest)
  end.

Section selector.
(** The type of a feature vector. *)
Context {feature : Type}.
(** [F.softmax(., -1)] on one row of logits. *)
Variable softmax : list Qc → list Qc.

(** The body of the loop over the images: the top region features and
    [class_not_predicted] of one image. *)
Definition top_region_features_image (pred_scores_image : list (list Qc))
    (region_features_image : list feature) : option (list feature * list bool) :=
  pred_classes ← mapM argmax pred_scores_image;
  mask_pred_classes ← mapM one_hot pred_classes;
  let pred_top_scores_image :=
    zip_with (zip_with Qcmult) pred_scores_image mask_pred_classes in
  inds_regions_with_top_scores ←
    mapM (λ c, argmax (column c pred_top_scores_image)) (seq 0 num_regions);
  let num_predictions_per_class := sum_dim0 mask_pred_classes in
  let class_not_predicted :=
    map (λ n, bool_decide (n = 0)) num_predictions_per_class in
  top_region_features ←
    mapM (λ i, region_features_image !! i) inds_regions_with_top_scores;
  Some (top_region_features, class_not_predicted).

(** [get_top_region_features]. [None] stands for an exception. *)
Definition get_top_region_features (region_features : list feature)
    (class_logits : list (list Qc)) (proposals : list (list box))
    : option (list (list feature) * list (list bool)) :=
  let pred_scores := map softmax class_logits in
  let pred_scores := map (drop 1) pred_scores in
  let boxes_per_image := map length proposals in
  pred_scores_per_image ← split_sizes pred_scores boxes_per_image;
  region_features_per_image ← split_sizes region_features boxes_per_image;
  per_image ←
    mapM (λ sf, top_region_features_image sf.1 sf.2)
         (zip pred_scores_per_image region_features_per_image);
  guard (per_image ≠ []);;
  Some (per_image.*1, per_image.*2).
End selector.

(** The scores of one image as the selector meets them: for each proposal a
    row of 36 scores, all positive (they come out of a softmax). *)
Definition image_scores_ok (pred_scores_image : list (list Qc)) : Prop :=
  Forall (λ row, length row = num_regions ∧ Forall (λ x, 0 < x) row)
         pred_scores_image.

(** Proposal [i] predicts region [r] with score [x]: [r] is the arg-max of
    its row of scores, and [x] its score for [r]. *)
Definition predicts (pred_scores_image : list (list Qc)) (i r : nat) (x : Qc) : Prop :=
  ∃ row, pred_scores_image !! i = Some row ∧ argmax row = Some r ∧ row !! r = Some x.

(** ** Concrete inputs used below *)

(** The unit square and a box of area 1 that lies apart from it in both
    directions. *)
Definition unit_box : box := Box 0 0 1 1.
Definition far_box : box := Box 2 (Qc_of_Z 3) (Qc_of_Z 3) (Qc_of_Z 4).

(** A row of 36 flags, true exactly at the listed regions. *)
Definition flags_at (regions : list nat) : list bool :=
  map (λ r, bool_decide (r ∈ regions)) (seq 0 num_regions).

(** A validation batch with the given detected flags (one row per image);
    all boxes are the unit square, nothing is selected or abnormal, and all
    losses, the four of the object detector among them, are 0. *)
Definition batch_with_detections (class_detected : list (list bool)) : val_batch :=
  let n := length class_detected in
  ValBatch n
    (replicate n (replicate num_regions unit_box))
    (replicate n (replicate num_regions false))
    (replicate n (replicate num_regions false))
    [0; 0; 0; 0] 0 0 0
    (replicate n (replicate num_regions unit_box))
    class_detected
    (replicate n (replicate num_regions false))
    (replicate n (replicate num_regions false)).

(** A validation batch of [n] images whose losses are all [loss]. *)
Definition batch_with_loss (n : nat) (loss : Qc) : val_batch :=
  ValBatch n
    (replicate n (replicate num_regions unit_box))
    (replicate n (replicate num_regions false))
    (replicate n (replicate num_regions false))
    [loss] loss loss loss
    (replicate n (replicate num_regions unit_box))
    (replicate n (replicate num_regions true))
    (replicate n (replicate num_regions false))
    (replicate n (replicate num_regions false)).

(** A row of 36 reference sentences: the given ones for the first regions,
    the empty marker for the rest. *)
Definition reference_row (sentences : list string) : list string :=
  take num_regions (sentences ++ replicate num_regions "#").

(** The scenario of the specification: one image, regions 0 and 1 selected,
    region 1 abnormal, reference sentences [#] and [opacity noted]. *)
Definition scenario_batch : lm_batch :=
  LmBatch [flags_at [1%nat]] [reference_row ["#"; "opacity noted"]]
          [flags_at [0%nat; 1%nat]] ["no finding"; "there is an opacity"].

Definition scenario_cfg : run_configurations :=
  RunConfigurations 1%nat 1%nat 1%nat 0%nat.

(** ** Sentences under a plotted image *)

(** [torch.sum(row).item()] of a row of booleans. *)
Definition count_true (row : list bool) : nat :=
  length (filter (λ b, b = true) row).

(** [get_generated_sentence_for_region]: the generated sentence of region
    [region_index] of image [num_img], among the sentences generated for the
    selected regions of the batch. [None] is an [IndexError]. *)
Definition get_generated_sentence_for_region
    (generated_sentences_for_selected_regions : list string)
    (selected_regions : list (list bool)) (num_img region_index : nat)
    : option string :=
  rows ← mapM (λ num, selected_regions !! num) (seq 0 num_img);
  row ← selected_regions !! num_img;
  let index :=
    (sum_list (map count_true rows) + count_true (take region_index row))%nat in
  generated_sentences_for_selected_regions !! index.

(** Python's [str.isspace] on one character (code points below 256). *)
Definition is_space (c : Ascii.ascii) : bool :=
  let n := Ascii.nat_of_ascii c in
  bool_decide (9 ≤ n ≤ 13 ∨ 28 ≤ n ≤ 32 ∨ n = 133 ∨ n = 160)%nat.

(** [str.split()] with the word read so far in [cur]. *)
Fixpoint str_split_go (cur : string) (s : string) : list string :=
  match s with
  | EmptyString => match cur with EmptyString => [] | _ => [cur] end
  | String c s =>
      if is_space c then
        match cur with
        | EmptyString => str_split_go "" s
        | _ => cur :: str_split_go "" s
        end
      else str_split_go (cur +:+ String c "") s
  end.

(** [s.split()]: the words of [s], separated by runs of whitespace. *)
Definition str_split (s : string) : list string := str_split_go "" s.

(** [" " * n]. *)
Fixpoint spaces (n : nat) : string :=
  match n with
  | O => ""
  | S n => String (Ascii.ascii_of_nat 32) (spaces n)
  end.

(** [prefix_for_alignment]: a line break and 20 spaces. *)
Definition prefix_for_alignment : string := newline +:+ spaces 20.

(** The loop of [transform_sentence_to_fit_under_image] over the words. *)
Fixpoint transform_words (words : list string) (transformed_sent : string)
    (current_line_length : Z) : string :=
  match words with
  | [] => transformed_sent
  | word :: words =>
      let '(word, current_line_length) :=
        if (50 <? Z.of_nat (String.length word) + current_line_length)%Z
        then (prefix_for_alignment +:+ word,
              (- Z.of_nat (String.length prefix_for_alignment))%Z)
        else (word, current_line_length) in
      transform_words words (transformed_sent +:+ word +:+ " ")
        (current_line_length + Z.of_nat (String.length word))%Z
  end.

(** One step of the loop over the words: the word as it is written, and the
    length of the current line after it. *)
Definition transform_word (word : string) (current_line_length : Z) : string * Z :=
  if (50 <? Z.of_nat (String.length word) + current_line_length)%Z
  then (prefix_for_alignment +:+ word,
        (- Z.of_nat (String.length prefix_for_alignment)
         + Z.of_nat (String.length (prefix_for_alignment +:+ word)))%Z)
  else (word, (current_line_length + Z.of_nat (String.length word))%Z).

(** [transform_sentence_to_fit_under_image]. *)
Definition transform_sentence_to_fit_under_image (ref_sent_region : string) : string :=
  if decide (String.length ref_sent_region < 50)%nat then ref_sent_region
  else transform_words (str_split ref_sent_region) "" 0%Z.

(** [update_region_set_text]. [None] is an [IndexError]. *)
Definition update_region_set_text (region_set_text color : string)
    (reference_sentences_img : list string)
    (generated_sentences_for_selected_regions : list string)
    (region_index : nat) (selected_regions : list (list bool)) (num_img : nat)
    : option string :=
  let region_set_text := region_set_text +:+ "(" +:+ color +:+ "):  " +:+ newline in
  reference_sentence_region ← reference_sentences_img !! region_index;
  let reference_sentence_region :=
    transform_sentence_to_fit_under_image reference_sentence_region in
  let region_set_text :=
    region_set_text +:+ "  reference: "
    +:+ (if decide (reference_sentence_region ≠ "#")
         then reference_sentence_region else "")
    +:+ newline in
  row ← selected_regions !! num_img;
  box_region_selected ← row !! region_index;
  if negb box_region_selected then
    Some (region_set_text +:+ "  generated: [REGION NOT SELECTED]"
          +:+ newline +:+ newline)
  else
    generated_sentence_region ←
      get_generated_sentence_for_region
        generated_sentences_for_selected_regions selected_regions
        num_img region_index;
    let generated_sentence_region :=
      transform_sentence_to_fit_under_image generated_sentence_region in
    Some (region_set_text +:+ "  generated: " +:+ generated_sentence_region
          +:+ newline +:+ newline).

(** ** The tensors of a whole pass *)

(** The rows of boxes the loop has seen, batch after batch. *)
Definition all_top_region_boxes (val_dl : list val_batch) : list (list box) :=
  concat (map vb_top_region_boxes val_dl).
Definition all_gt_boxes (val_dl : list val_batch) : list (list box) :=
  concat (map vb_gt_boxes val_dl).

(** A batch whose tensors for the detector scores all have [batch_size] rows
    of 36 entries. *)
Definition detector_batch_ok (b : val_batch) : Prop :=
  shape (vb_batch_size b) (vb_top_region_boxes b)
  ∧ shape (vb_batch_size b) (vb_gt_boxes b)
  ∧ shape (vb_batch_size b) (vb_class_detected b).

(** A box with positive width and height. *)
Definition non_degenerate (b : box) : Prop := bx0 b < bx1 b ∧ by0 b < by1 b.

(** Scores of three proposals: the first and the third predict region 1
    with score 2/10, the second predicts region 0 with score 3/10. *)
Definition three_proposals : list (list Qc) :=
  [ [Qc_of_Z 1 / Qc_of_Z 10; Qc_of_Z 2 / Qc_of_Z 10]
      ++ replicate 34 (Qc_of_Z 1 / Qc_of_Z 100);
    [Qc_of_Z 3 / Qc_of_Z 10; Qc_of_Z 1 / Qc_of_Z 10]
      ++ replicate 34 (Qc_of_Z 1 / Qc_of_Z 100);
    [Qc_of_Z 1 / Qc_of_Z 10; Qc_of_Z 2 / Qc_of_Z 10]
      ++ replicate 34 (Qc_of_Z 1 / Qc_of_Z 100) ].

(** Scores of two proposals that both predict region 1. *)
Definition two_proposals_one_region : list (list Qc) :=
  [ [Qc_of_Z 1 / Qc_of_Z 10; Qc_of_Z 2 / Qc_of_Z 10]
      ++ replicate 34 (Qc_of_Z 1 / Qc_of_Z 100);
    [Qc_of_Z 1 / Qc_of_Z 10; Qc_of_Z 3 / Qc_of_Z 10]
      ++ replicate 34 (Qc_of_Z 1 / Qc_of_Z 100) ].

(** A word: a non-empty string without whitespace. *)
Fixpoint has_no_space (s : string) : bool :=
  match s with
  | EmptyString => true
  | String c s => negb (is_space c) && has_no_space s
  end.

Definition is_word (w : string) : Prop := w ≠ "" ∧ has_no_space w = true.

(** * Properties *)

Local Close Scope Qc_scope.

(** ** Sums along the batch dimension *)

Lemma sum_dim0_lookup (t : list (list Qc)) (r : nat) :
  Forall (λ row, length row = num_regions) t →
  r < num_regions →
  sum_dim0 t !! r = Some (sum_Qc (column r t)).
Proof.
  intros Hall Hr. unfold sum_dim0.
  induction Hall as [|row t Hrow Hall IH]; cbn [foldr].
  - by apply lookup_replicate_2.
  - destruct (lookup_lt_is_Some_2 row r) as [x Hx]; [lia|].
    unfold column; cbn [omap list_omap]. rewrite Hx.
    rewrite lookup_zip_with, Hx; cbn [mbind option_bind fmap option_map sum_Qc foldr].
    by rewrite IH.
Qed.

Lemma column_cons {A} (r : nat) (row : list A) (t : list (list A)) (x : A) :
  row !! r = Some x → column r (row :: t) = x :: column r t.
Proof. intros H. unfold column; simpl. by rewrite H. Qed.

Lemma column_zip_with {A B C} (f : A → B → C) (r : nat)
    (a : list (list A)) (b : list (list B)) :
  Forall (λ row, length row = num_regions) a →
  Forall (λ row, length row = num_regions) b →
  r < num_regions →
  column r (zip_with (zip_with f) a b) = zip_with f (column r a) (column r b).
Proof.
  intros Ha. revert b. induction Ha as [|ra a Hra Ha IH]; intros b Hb Hr.
  - done.
  - destruct Hb as [|rb b Hrb Hb]; [by destruct (column r (ra :: a))|].
    destruct (lookup_lt_is_Some_2 ra r) as [x Hx]; [lia|].
    destruct (lookup_lt_is_Some_2 rb r) as [y Hy]; [lia|].
    cbn [zip_with].
    rewrite (column_cons r _ _ (f x y)), (column_cons r ra a x Hx),
      (column_cons r rb b y Hy).
    + cbn [zip_with]. f_equal. by apply IH.
    + by rewrite lookup_zip_with, Hx, Hy.
Qed.

Lemma Forall_length_zip_with {A B C} (f : A → B → C)
    (a : list (list A)) (b : list (list B)) :
  Forall (λ row, length row = num_regions) a →
  Forall (λ row, length row = num_regions) b →
  Forall (λ row, length row = num_regions) (zip_with (zip_with f) a b).
Proof.
  intros Ha. revert b. induction Ha as [|ra a Hra Ha IH]; intros b Hb.
  - constructor.
  - destruct Hb as [|rb b Hrb Hb]; [constructor|].
    cbn [zip_with]. constructor; [|by apply IH].
    rewrite length_zip_with. lia.
Qed.

Lemma sum_Qc_masked {A} (v : A → bool) (a : A → Qc) (l : list A) :
  sum_Qc (map (λ e, if v e then a e else 0%Qc) l)
  = sum_Qc (map a (filter (λ e, v e = true) l)).
Proof.
  induction l as [|e l IH]; [done|].
  cbn [map sum_Qc foldr]. rewrite filter_cons.
  destruct (v e) eqn:Hv.
  - rewrite decide_True by done. cbn [map sum_Qc foldr].
    unfold sum_Qc in IH. by rewrite IH.
  - rewrite decide_False by done. unfold sum_Qc in IH.
    by rewrite IH, Qcplus_0_l.
Qed.

(** The per-region intersection sum of a batch is the sum, over the valid
    entries of the region only, of the area of the intersection box. *)
Lemma intersection_sum_valid_only (n : nat)
    (pred_boxes gt_boxes : list (list box)) (class_detected : list (list bool))
    (r : nat) :
  shape n pred_boxes → shape n gt_boxes → shape n class_detected →
  r < num_regions →
  (compute_intersection_and_union_area_per_region
     pred_boxes gt_boxes class_detected).1 !! r
  = Some (sum_Qc
      (map (λ e : box * box * bool, compute_box_area (intersection_box e.1.1 e.1.2))
         (filter (λ e : box * box * bool, valid_intersection e.1.1 e.1.2 e.2 = true)
            (region_entries r pred_boxes gt_boxes class_detected)))).
Proof.
  intros [_ Hp] [_ Hg] [_ Hd] Hr.
  unfold compute_intersection_and_union_area_per_region; cbn [fst].
  assert (Hz : Forall (λ row : list (box * box), length row = num_regions)
                 (zip_with zip pred_boxes gt_boxes))
    by (by apply (Forall_length_zip_with pair)).
  rewrite sum_dim0_lookup; [|by apply Forall_length_zip_with|done].
  rewrite column_zip_with by done.
  rewrite (column_zip_with pair) by done.
  unfold region_entries. f_equal.
  rewrite <- (sum_Qc_masked
    (λ e : box * box * bool, valid_intersection e.1.1 e.1.2 e.2)).
  f_equal.
  generalize (zip (column r pred_boxes) (column r gt_boxes)) as l.
  generalize (column r class_detected) as d.
  intros d l. revert d. induction l as [|e l IH]; intros [|b d]; try done.
  cbn [zip_with map]. by rewrite IH.
Qed.

Ltac solve_shape := split; [reflexivity | repeat constructor].

(** ** C1: invalid entries and the two running sums *)

(** C1 (amended). In every update, for every region, the entries whose
    intersection is invalid (corners not strictly ordered, or region not
    detected) contribute zero to the intersection-area sum of the batch: the
    sum ranges over the valid entries only. The union-area sum is not masked:
    it is the same whatever the detected flags are. *)
Theorem invalid_entries_masked_in_intersection_only (n : nat)
    (pred_boxes gt_boxes : list (list box))
    (class_detected class_detected' : list (list bool)) (r : nat) :
  shape n pred_boxes → shape n gt_boxes →
  shape n class_detected → shape n class_detected' →
  r < num_regions →
  (compute_intersection_and_union_area_per_region
     pred_boxes gt_boxes class_detected).1 !! r
  = Some (sum_Qc
      (map (λ e : box * box * bool, compute_box_area (intersection_box e.1.1 e.1.2))
         (filter (λ e : box * box * bool, valid_intersection e.1.1 e.1.2 e.2 = true)
            (region_entries r pred_boxes gt_boxes class_detected))))
  ∧ (compute_intersection_and_union_area_per_region
       pred_boxes gt_boxes class_detected').2
    = (compute_intersection_and_union_area_per_region
         pred_boxes gt_boxes class_detected).2.
Proof.
  intros Hp Hg Hd Hd' Hr. split.
  - by apply (intersection_sum_valid_only n).
  - reflexivity.
Qed.

Lemma invalid_entries_masked_in_intersection_only_witness :
  (compute_intersection_and_union_area_per_region
     [replicate num_regions unit_box] [replicate num_regions unit_box]
     [replicate num_regions true]).1 !! 0%nat
  = Some (sum_Qc
      (map (λ e : box * box * bool, compute_box_area (intersection_box e.1.1 e.1.2))
         (filter (λ e : box * box * bool, valid_intersection e.1.1 e.1.2 e.2 = true)
            (region_entries 0 [replicate num_regions unit_box]
               [replicate num_regions unit_box] [replicate num_regions true]))))
  ∧ (compute_intersection_and_union_area_per_region
       [replicate num_regions unit_box] [replicate num_regions unit_box]
       [replicate num_regions false]).2
    = (compute_intersection_and_union_area_per_region
         [replicate num_regions unit_box] [replicate num_regions unit_box]
         [replicate num_regions true]).2.
Proof.
  apply (invalid_entries_masked_in_intersection_only 1);
    [solve_shape | solve_shape | solve_shape | solve_shape | unfold num_regions; lia].
Defined.

(** C1, as stated, fails for the union sum: in a batch of one image whose
    region 0 is not detected (both boxes the unit square), every entry of
    region 0 is invalid and the union sum of region 0 is 1. *)
Lemma undetected_entry_contributes_to_union :
  ¬ (∀ (pred_boxes gt_boxes : list (list box)) (class_detected : list (list bool))
       (r : nat),
       shape 1 pred_boxes → shape 1 gt_boxes → shape 1 class_detected →
       r < num_regions →
       Forall (λ e : box * box * bool, valid_intersection e.1.1 e.1.2 e.2 = false)
         (region_entries r pred_boxes gt_boxes class_detected) →
       (compute_intersection_and_union_area_per_region
          pred_boxes gt_boxes class_detected).2 !! r = Some 0%Qc).
Proof.
  intros H.
  specialize (H [replicate num_regions unit_box]
                [replicate num_regions unit_box]
                [replicate num_regions false] 0%nat).
  assert (Hu : (compute_intersection_and_union_area_per_region
            [replicate num_regions unit_box]
            [replicate num_regions unit_box]
            [replicate num_regions false]).2 !! 0%nat = Some 1%Qc).
  { vm_compute. reflexivity. }
  rewrite Hu in H.
  assert (Some 1%Qc = Some 0%Qc) as Heq;
    [apply H; [solve_shape | solve_shape | solve_shape | unfold num_regions; lia |]|].
  - repeat constructor.
  - discriminate Heq.
Qed.

(** ** C8: symmetry and the values of the IoU *)

Lemma Qcltb_true (x y : Qc) : Qcltb x y = true ↔ (x < y)%Qc.
Proof. unfold Qcltb. by rewrite bool_decide_eq_true. Qed.

Lemma Qcltb_false (x y : Qc) : Qcltb x y = false ↔ (y ≤ x)%Qc.
Proof. unfold Qcltb. by rewrite bool_decide_eq_false, Qcle_ngt. Qed.

Lemma Qcmax_comm (x y : Qc) : Qcmax x y = Qcmax y x.
Proof.
  unfold Qcmax.
  destruct (Qcltb x y) eqn:Hxy, (Qcltb y x) eqn:Hyx; try done.
  - apply Qcltb_true in Hxy, Hyx. destruct (Qclt_not_le _ _ Hxy).
    by apply Qclt_le_weak.
  - apply Qcltb_false in Hxy, Hyx. by apply Qcle_antisym.
Qed.

Lemma Qcmin_comm (x y : Qc) : Qcmin x y = Qcmin y x.
Proof.
  unfold Qcmin.
  destruct (Qcltb x y) eqn:Hxy, (Qcltb y x) eqn:Hyx; try done.
  - apply Qcltb_true in Hxy, Hyx. destruct (Qclt_not_le _ _ Hxy).
    by apply Qclt_le_weak.
  - apply Qcltb_false in Hxy, Hyx. by apply Qcle_antisym.
Qed.

Lemma Qcltb_irrefl (x : Qc) : Qcltb x x = false.
Proof. apply Qcltb_false, Qcle_refl. Qed.

Lemma Qcmax_id (x : Qc) : Qcmax x x = x.
Proof. unfold Qcmax. by rewrite Qcltb_irrefl. Qed.

Lemma Qcmin_id (x : Qc) : Qcmin x x = x.
Proof. unfold Qcmin. by rewrite Qcltb_irrefl. Qed.

Lemma intersection_box_comm (a b : box) :
  intersection_box a b = intersection_box b a.
Proof.
  unfold intersection_box.
  by rewrite (Qcmax_comm (bx0 a)), (Qcmax_comm (by0 a)),
    (Qcmin_comm (bx1 a)), (Qcmin_comm (by1 a)).
Qed.

Lemma zip_with_comm {A B} (f g : A → A → B) (l k : list A) :
  (∀ x y, f x y = g y x) → zip_with f l k = zip_with g k l.
Proof.
  intros Hf. revert k. induction l as [|x l IH]; intros [|y k]; try done.
  cbn [zip_with]. by rewrite Hf, IH.
Qed.

(** Swapping the predicted and the ground-truth boxes leaves both sums of a
    batch unchanged. *)
Lemma compute_intersection_and_union_area_per_region_comm
    (pred_boxes gt_boxes : list (list box)) (class_detected : list (list bool)) :
  compute_intersection_and_union_area_per_region gt_boxes pred_boxes class_detected
  = compute_intersection_and_union_area_per_region pred_boxes gt_boxes class_detected.
Proof.
  unfold compute_intersection_and_union_area_per_region. f_equal.
  - f_equal. revert pred_boxes class_detected.
    induction gt_boxes as [|g gt IH]; intros [|p pred] [|d det]; try done.
    cbn [zip_with]. rewrite IH. f_equal.
    clear. revert p d. induction g as [|x g IH]; intros [|y p] [|b d]; try done.
    cbn [zip zip_with]. f_equal; [|apply IH].
    unfold entry_intersection_area, valid_intersection; cbn [fst snd].
    by rewrite (intersection_box_comm x y).
  - f_equal. apply zip_with_comm. intros p g. apply zip_with_comm.
    intros x y. unfold entry_union_area.
    by rewrite (intersection_box_comm x y), (Qcplus_comm (compute_box_area x)).
Qed.

(** Two identical, non-degenerate, detected boxes: IoU 1. *)
Lemma identical_boxes_iou (b : box) :
  (bx0 b < bx1 b)%Qc → (by0 b < by1 b)%Qc →
  tdiv (entry_intersection_area b b true) (entry_union_area b b) = TNum 1%Qc.
Proof.
  intros Hx Hy.
  assert (Hib : intersection_box b b = b).
  { unfold intersection_box. rewrite !Qcmax_id, !Qcmin_id. by destruct b. }
  unfold entry_intersection_area, entry_union_area, valid_intersection.
  rewrite Hib.
  rewrite (proj2 (Qcltb_true _ _) Hx), (proj2 (Qcltb_true _ _) Hy); cbn [andb].
  assert (Hpos : compute_box_area b ≠ 0%Qc).
  { unfold compute_box_area. intros H0.
    apply Qcmult_integral in H0 as [H0|H0].
    - apply (Qclt_not_eq _ _ Hx). symmetry.
      rewrite <- (Qcplus_0_l (bx0 b)), <- H0. ring.
    - apply (Qclt_not_eq _ _ Hy). symmetry.
      rewrite <- (Qcplus_0_l (by0 b)), <- H0. ring. }
  replace (compute_box_area b + compute_box_area b - compute_box_area b)%Qc
    with (compute_box_area b) by ring.
  unfold tdiv. rewrite decide_False by done.
  f_equal. by apply Qcmult_inv_r.
Qed.

(** Two boxes whose intersection corners are not strictly ordered: the
    intersection area is 0, so the IoU is 0 unless the union area the code
    computes is 0 too. *)
Lemma disjoint_boxes_iou (p g : box) (detected : bool) :
  valid_intersection p g detected = false →
  tdiv (entry_intersection_area p g detected) (entry_union_area p g)
  = if decide (entry_union_area p g = 0%Qc) then TNaN else TNum 0%Qc.
Proof.
  intros Hv. unfold entry_intersection_area. rewrite Hv.
  unfold tdiv. destruct (decide (entry_union_area p g = 0%Qc)).
  - by rewrite decide_True.
  - f_equal. unfold Qcdiv. ring.
Qed.

(** C8 fails on two disjoint boxes. With the unit square predicted for region
    0, a ground-truth box [(2, 3, 3, 4)] and the region detected, the pass
    over this one image accumulates intersection 0 and union 0, and the IoU
    of region 0 is [nan], not 0. *)
Theorem disjoint_boxes_iou_is_nan :
  let scores :=
    update_object_detector_metrics obj_detector_scores_init
      [replicate num_regions unit_box]
      [far_box :: replicate 35 unit_box]
      [replicate num_regions true] in
  valid_intersection unit_box far_box true = false
  ∧ sum_intersection_area_per_region scores !! 0%nat = Some 0%Qc
  ∧ sum_union_area_per_region scores !! 0%nat = Some 0%Qc
  ∧ avg_iou_per_region (reduce_obj_detector_scores scores 1) !! 0%nat = Some TNaN
  ∧ avg_iou_per_region (reduce_obj_detector_scores scores 1) !! 1%nat
    = Some (TNum 1%Qc).
Proof. vm_compute. repeat split; reflexivity. Qed.

(** ** C6: detections per region and per image *)

Lemma column_app {A} (r : nat) (t u : list (list A)) :
  column r (t ++ u) = column r t ++ column r u.
Proof.
  unfold column. induction t as [|row t IH]; [done|].
  cbn [app omap list_omap]. destruct (row !! r); by rewrite IH.
Qed.

Lemma column_map {A B} (f : A → B) (r : nat) (t : list (list A)) :
  column r (map (map f) t) = map f (column r t).
Proof.
  unfold column. induction t as [|row t IH]; [done|].
  cbn [map omap list_omap]. rewrite list_lookup_fmap.
  destruct (row !! r); cbn [fmap option_map map]; by rewrite IH.
Qed.

Lemma sum_Qc_app (l k : list Qc) : sum_Qc (l ++ k) = (sum_Qc l + sum_Qc k)%Qc.
Proof.
  unfold sum_Qc. induction l as [|x l IH]; cbn [app foldr].
  - by rewrite Qcplus_0_l.
  - rewrite IH. ring.
Qed.

Lemma foldl_val_step_num_images (val_dl : list val_batch) (st : val_state) :
  vs_num_images (foldl val_step st val_dl) = vs_num_images st + total_images val_dl.
Proof.
  revert st. induction val_dl as [|b val_dl IH]; intros st; cbn [foldl].
  - unfold total_images. simpl. lia.
  - rewrite IH. unfold total_images. cbn [val_step vs_num_images map sum_list sum_list_with].
    unfold id. lia.
Qed.

Lemma foldl_val_step_detected (val_dl : list val_batch) (st : val_state)
    (r : nat) (a : Qc) :
  Forall (λ b, Forall (λ row, length row = num_regions) (vb_class_detected b)) val_dl →
  r < num_regions →
  sum_region_detected (vs_obj_detector_scores st) !! r = Some a →
  sum_region_detected (vs_obj_detector_scores (foldl val_step st val_dl)) !! r
  = Some (a + sum_Qc (map Qc_of_bool (column r (all_class_detected val_dl))))%Qc.
Proof.
  intros Hall Hr. revert st a.
  induction Hall as [|b val_dl Hb Hall IH]; intros st a Ha; cbn [foldl].
  - unfold all_class_detected. cbn. rewrite Ha. f_equal. ring.
  - erewrite IH; last first.
    + unfold val_step, update_object_detector_metrics; cbn.
      rewrite lookup_zip_with, Ha. cbn [mbind option_bind].
      rewrite sum_dim0_lookup; [|apply Forall_fmap, (Forall_impl _ _ _ Hb);
        intros row Hrow; cbn; by rewrite length_map|done].
      cbn. reflexivity.
    + unfold all_class_detected. cbn [map concat].
      rewrite column_app, map_app, sum_Qc_app, column_map. f_equal. ring.
Qed.

Lemma sum_dim0_length_eq (t : list (list Qc)) :
  Forall (λ row, length row = num_regions) t →
  length (sum_dim0 t) = num_regions.
Proof.
  intros Hall. unfold sum_dim0.
  induction Hall as [|row t Hrow Hall IH]; cbn [foldr].
  - by rewrite length_replicate.
  - rewrite length_zip_with. lia.
Qed.




(** ** C10: normalisation of the validation losses *)

Lemma list_of_losses_lookup (b : val_batch) (j : nat) :
  j < 5 → list_of_losses b !! j = Some (batch_loss j b).
Proof.
  intros Hj. unfold batch_loss.
  do 5 (destruct j as [|j]; [reflexivity|]). lia.
Qed.

Lemma foldl_val_step_losses (val_dl : list val_batch) (st : val_state)
    (j : nat) (k : string) (a : Qc) :
  j < 5 →
  vs_val_losses_dict st !! j = Some (k, a) →
  vs_val_losses_dict (foldl val_step st val_dl) !! j
  = Some (k, (a + weighted_loss_sum j val_dl)%Qc).
Proof.
  intros Hj. revert st a.
  induction val_dl as [|b val_dl IH]; intros st a Ha; cbn [foldl].
  - rewrite Ha. do 2 f_equal. unfold weighted_loss_sum, sum_Qc. cbn [map foldr]. ring.
  - erewrite IH; last first.
    + unfold val_step; cbn [vs_val_losses_dict].
      rewrite lookup_zip_with, Ha. cbn [mbind option_bind].
      rewrite (list_of_losses_lookup b j Hj). cbn. reflexivity.
    + do 2 f_equal. unfold weighted_loss_sum, sum_Qc. cbn [map foldr]. ring.
Qed.



(** On a non-empty loader the pass returns: the state after the loop,
    reduced. *)
Lemma get_val_losses_and_other_metrics_nonempty (val_dl : list val_batch) :
  val_dl ≠ [] →
  get_val_losses_and_other_metrics val_dl
  = let st := foldl val_step val_state_init val_dl in
    Some (ValResult
            (map (λ kv : string * Qc, (kv.1, (kv.2 / Qc_of_nat (length val_dl))%Qc))
                 (vs_val_losses_dict st))
            (reduce_obj_detector_scores (vs_obj_detector_scores st) (vs_num_images st))
            (vs_region_selection_scores st)
            (vs_region_abnormal_scores st)).
Proof.
  intros Hne. unfold get_val_losses_and_other_metrics.
  rewrite option_guard_True; [done|]. by destruct val_dl.
Qed.

Lemma val_losses_dict_init_lookup (j : nat) :
  j < 5 → ∃ k, val_losses_dict_init !! j = Some (k, 0%Qc).
Proof.
  intros Hj. do 5 (destruct j as [|j]; [by eexists|]). lia.
Qed.

Lemma reported_loss_lookup (val_dl : list val_batch) (res : val_result) (j : nat) :
  get_val_losses_and_other_metrics val_dl = Some res →
  j < 5 →
  (vr_val_losses_dict res).*2 !! j
  = Some (weighted_loss_sum j val_dl / Qc_of_nat (length val_dl))%Qc.
Proof.
  intros Hres Hj.
  destruct (decide (val_dl = [])) as [->|Hne]; [done|].
  rewrite get_val_losses_and_other_metrics_nonempty in Hres by done.
  cbn zeta in Hres. injection Hres as <-. cbn [vr_val_losses_dict].
  destruct (val_losses_dict_init_lookup j Hj) as [k Hk].
  rewrite !list_lookup_fmap.
  rewrite (foldl_val_step_losses val_dl val_state_init j k 0%Qc Hj Hk).
  cbn [fmap option_map fst snd]. by rewrite Qcplus_0_l.
Qed.

Lemma Qc_of_nat_neq_0 (n : nat) : n ≠ 0%nat → Qc_of_nat n ≠ 0%Qc.
Proof.
  intros Hn H0. rewrite <- Z2Qc_inj_0 in H0. unfold Qc_of_nat in H0.
  apply Z2Qc_inj in H0. lia.
Qed.

Lemma val_step_keys (st : val_state) (b : val_batch) :
  length (vs_val_losses_dict st) = 5%nat →
  (vs_val_losses_dict (val_step st b)).*1 = (vs_val_losses_dict st).*1.
Proof.
  unfold val_step; cbn [vs_val_losses_dict]. unfold list_of_losses.
  generalize (vs_val_losses_dict st) as d. intros d Hd.
  do 5 (destruct d as [|? d]; [done|]).
  destruct d; [reflexivity|done].
Qed.

Lemma foldl_val_step_keys (val_dl : list val_batch) (st : val_state) :
  length (vs_val_losses_dict st) = 5%nat →
  (vs_val_losses_dict (foldl val_step st val_dl)).*1 = (vs_val_losses_dict st).*1.
Proof.
  revert st. induction val_dl as [|b val_dl IH]; intros st Hst; cbn [foldl]; [done|].
  rewrite IH.
  - by apply val_step_keys.
  - rewrite <- (length_fmap fst), val_step_keys, length_fmap; done.
Qed.

Lemma reported_losses_keys_and_total (val_dl : list val_batch)
    (res : val_result) :
  get_val_losses_and_other_metrics val_dl = Some res →
  (vr_val_losses_dict res).*1 = val_losses_dict_init.*1
  ∧ (vr_val_losses_dict res).*2 !! 0
    = Some (weighted_loss_sum 0 val_dl / Qc_of_nat (length val_dl))%Qc.
Proof.
  intros Hres. split; [|apply (reported_loss_lookup val_dl res 0 Hres); lia].
  destruct (decide (val_dl = [])) as [->|Hne]; [done|].
  rewrite get_val_losses_and_other_metrics_nonempty in Hres by done.
  cbn zeta in Hres. injection Hres as <-. cbn [vr_val_losses_dict].
  rewrite <- list_fmap_compose.
  change (val_losses_dict_init.*1) with ((vs_val_losses_dict val_state_init).*1).
  by rewrite <- (foldl_val_step_keys val_dl val_state_init).
Qed.



(** ** C7: the best checkpoint *)


Lemma dict_get_head (key : string) (d : list (string * Qc)) (v : Qc) :
  d.*1 !! 0 = Some key → d.*2 !! 0 = Some v → dict_get key d = Some v.
Proof.
  destruct d as [|[k v'] d]; [done|]. cbn. intros [= ->] [= ->].
  by rewrite decide_True.
Qed.




(** ** C9: the abnormality decision is gated on detection *)

Lemma masked_select_zip {A B} (mask : list bool) (xs : list A) (ys : list B) :
  zip (masked_select mask xs) (masked_select mask ys)
  = masked_select mask (zip xs ys).
Proof.
  revert xs ys. induction mask as [|m mask IH]; intros [|x xs] [|y ys]; try done.
  - cbn [masked_select zip zip_with]. by destruct (if m then _ else _).
  - cbn [masked_select zip zip_with]. destruct m; cbn [zip zip_with]; by rewrite IH.
Qed.

Lemma masked_select_filter {A} (mask : list bool) (xs : list A) :
  masked_select mask xs
  = (filter (λ e : A * bool, e.2 = true) (zip xs mask)).*1.
Proof.
  revert xs. induction mask as [|m mask IH]; intros [|x xs]; try done.
  cbn [masked_select zip zip_with]. rewrite filter_cons. cbn [snd].
  destruct m.
  - rewrite decide_True by done. cbn [fmap list_fmap fst]. by rewrite IH.
  - rewrite decide_False by done. by rewrite IH.
Qed.

Lemma filter_fst_eq {A} `{EqDecision A} (x : A) (l : list (A * bool)) :
  length (filter (λ e : A, e = x) (filter (λ e : A * bool, e.2 = true) l).*1)
  = length (filter (λ e : A * bool, e = (x, true)) l).
Proof.
  induction l as [|[a b] l IH]; [done|].
  rewrite !filter_cons. cbn [snd]. destruct b.
  - rewrite decide_True by done. cbn [fmap list_fmap fst]. rewrite filter_cons.
    destruct (decide (a = x)) as [->|Hne].
    + rewrite decide_True by done. cbn [length]. by rewrite IH.
    + rewrite decide_False by congruence. done.
  - rewrite decide_False by done. rewrite decide_False by congruence. done.
Qed.

Lemma masked_select_length_eq {A B} (mask : list bool) (xs : list A) (ys : list B) :
  length xs = length ys →
  length (masked_select mask xs) = length (masked_select mask ys).
Proof.
  revert xs ys. induction mask as [|m mask IH]; intros [|x xs] [|y ys] Hl; try done.
  cbn [masked_select]. injection Hl as Hl.
  destruct m; cbn [length]; by rewrite (IH xs ys).
Qed.

Lemma shape_concat_length {A} (n : nat) (t : list (list A)) :
  shape n t → length (concat t) = n * num_regions.
Proof.
  intros [<- Hall]. induction Hall as [|row t Hrow Hall IH]; [done|].
  cbn [concat length]. rewrite length_app, IH, Hrow. lia.
Qed.

(** C9. An update of the abnormality scores calls the precision and the
    recall object once each, with the predictions and ground truths of the
    detected regions only: for each of the four combinations of prediction
    [p] and ground truth [a], the number of positions of the call carrying
    [(p, a)] is the number of region entries of the batch that are detected
    and carry [(p, a)], and the call has as many positions as there are
    detected entries. Undetected entries are counted nowhere. *)
Theorem abnormal_scores_gated_on_detection (n : nat) (s : pr_scores)
    (predicted_abnormal_regions region_is_abnormal class_detected : list (list bool)) :
  shape n predicted_abnormal_regions → shape n region_is_abnormal →
  shape n class_detected →
  let entries :=
    abnormal_entries predicted_abnormal_regions region_is_abnormal class_detected in
  ∃ call,
    update_region_abnormal_metrics s predicted_abnormal_regions
      region_is_abnormal class_detected
    = PrScores (precision s ++ [call]) (recall s ++ [call])
    ∧ (∀ p a, confusion_count p a call
              = length (filter (λ e, e = (p, a, true)) entries))
    ∧ length call.1 = length (filter (λ e : bool * bool * bool, e.2 = true) entries)
    ∧ length call.2 = length call.1.
Proof.
  intros Hp Ha Hd entries.
  eexists (_, _). split; [reflexivity|]. cbn [fst snd].
  unfold tensor_index.
  assert (Hlen : length (masked_select (concat class_detected)
                           (concat region_is_abnormal))
                 = length (masked_select (concat class_detected)
                             (concat predicted_abnormal_regions))).
  { apply masked_select_length_eq.
    by rewrite (shape_concat_length n), (shape_concat_length n). }
  assert (Hz : zip (masked_select (concat class_detected)
                      (concat predicted_abnormal_regions))
                   (masked_select (concat class_detected)
                      (concat region_is_abnormal))
               = (filter (λ e : bool * bool * bool, e.2 = true) entries).*1).
  { by rewrite masked_select_zip, masked_select_filter. }
  split; [|split].
  - intros p a. unfold confusion_count; cbn [fst snd].
    rewrite Hz. apply filter_fst_eq.
  - rewrite <- (length_fmap fst), <- Hz, length_zip_with. lia.
  - done.
Qed.

Lemma abnormal_scores_gated_on_detection_witness :
  let predicted := [flags_at [0; 1; 2]] in
  let abnormal := [flags_at [1; 2; 3]] in
  let detected := [flags_at [0; 1; 3]] in
  ∃ call,
    update_region_abnormal_metrics pr_scores_init predicted abnormal detected
    = PrScores (precision pr_scores_init ++ [call]) (recall pr_scores_init ++ [call])
    ∧ (∀ p a, confusion_count p a call
              = length (filter (λ e, e = (p, a, true))
                          (abnormal_entries predicted abnormal detected)))
    ∧ length call.1
      = length (filter (λ e : bool * bool * bool, e.2 = true)
                  (abnormal_entries predicted abnormal detected))
    ∧ length call.2 = length call.1.
Proof.
  apply (abnormal_scores_gated_on_detection 1 pr_scores_init
           [flags_at [0; 1; 2]] [flags_at [1; 2; 3]] [flags_at [0; 1; 3]]);
    solve_shape.
Defined.

(** ** C2: subsets without entries *)

(** The sentence metrics skip a subset without entries: with no abnormal
    region among the selected ones, the metric objects of the abnormal subset
    are left as they are. *)
Lemma update_language_model_scores_skips_empty_subset (s : language_model_scores)
    (gen ref : list string) (selected_regions region_is_abnormal : list (list bool)) :
  masked_select (tensor_index region_is_abnormal selected_regions) ref = [] →
  lm_abnormal (update_language_model_scores s gen ref selected_regions region_is_abnormal)
  = lm_abnormal s.
Proof.
  intros He. unfold update_language_model_scores,
    get_sents_for_normal_abnormal_selected_regions.
  cbn [lm_abnormal]. rewrite He. by rewrite decide_False by (cbn; lia).
Qed.

(** C2 fails: [update_region_selection_metrics] has no such guard. Every
    update calls the precision and the recall object of the abnormal subset
    with the entries of that subset, however few; on a batch of one image
    without an abnormal region both objects are called with empty
    predictions and empty ground truths. *)
Theorem region_selection_update_on_empty_subset :
  (∀ s selected_regions region_has_sentence region_is_abnormal,
     rs_abnormal (update_region_selection_metrics s selected_regions
                    region_has_sentence region_is_abnormal)
     = pr_update (rs_abnormal s)
         (tensor_index selected_regions region_is_abnormal)
         (tensor_index region_has_sentence region_is_abnormal))
  ∧ let s' :=
      update_region_selection_metrics region_selection_scores_init
        [flags_at [0; 1]] [flags_at [0]] [flags_at []] in
    tensor_index [flags_at [0; 1]] [flags_at []] = []
    ∧ precision (rs_abnormal s') = [([], [])]
    ∧ recall (rs_abnormal s') = [([], [])].
Proof. split; [reflexivity|]. vm_compute. repeat split. Qed.

(** ** C3: the empty marker of reference sentences *)

Lemma masked_select_subseteq {A} (mask : list bool) (xs : list A) :
  masked_select mask xs ⊆ xs.
Proof.
  revert xs. induction mask as [|m mask IH]; intros xs.
  - destruct xs; apply list_subseteq_nil.
  - destruct xs as [|x xs]; [apply list_subseteq_nil|].
    cbn [masked_select]. destruct m.
    + intros y [->|Hy]%elem_of_cons; [left|right; by apply IH].
    + intros y Hy. right. by apply IH.
Qed.

Lemma fed_references_add_batch_all (gen ref : list string) (d : subset_scores)
    (r : string) :
  r ∈ fed_references (add_batch_all gen ref d) →
  r ∈ fed_references d ∨ r ∈ ref.
Proof.
  unfold fed_references, add_batch_all.
  induction d as [|[k m] d IH]; cbn [map concat fst snd]; [by left|].
  rewrite !elem_of_app. intros [Hr|Hr].
  - unfold add_batch in Hr. rewrite fmap_app, concat_app in Hr.
    cbn in Hr. rewrite app_nil_r in Hr.
    apply elem_of_app in Hr as [Hr|Hr]; [by left; left|by right].
  - destruct (IH Hr) as [?|?]; [left; by right|by right].
Qed.

(** C3 (amended). The reference sentences reach the metric objects as they
    are, the marker [#] included: the objects of subset [all] receive the
    list of reference sentences itself, and every reference string an object
    of [normal] or [abnormal] receives is one of that list. The marker is
    replaced by the empty string only in the text written to the file. In the
    scenario, the objects of [all] receive [#; opacity noted] and the file
    shows an empty reference sentence. *)
Theorem sentinel_replaced_only_when_written
    (s : language_model_scores) (gen ref : list string)
    (selected_regions region_is_abnormal : list (list bool)) :
  let s' := update_language_model_scores s gen ref selected_regions region_is_abnormal in
  lm_all s' = add_batch_all gen ref (lm_all s)
  ∧ (∀ r, r ∈ fed_references (lm_normal s') →
          r ∈ fed_references (lm_normal s) ∨ r ∈ ref)
  ∧ (∀ r, r ∈ fed_references (lm_abnormal s') →
          r ∈ fed_references (lm_abnormal s) ∨ r ∈ ref)
  ∧ (∀ g, sentence_pair_text g "#"
          = ("Generated sentence: " +:+ g +:+ newline)
            +:+ ("Reference sentence: " +:+ newline +:+ newline))
  ∧ evaluate_language_model scenario_cfg [scenario_batch]
    = Some (LanguageModelScores
              (add_batch_all ["no finding"; "there is an opacity"]
                 ["#"; "opacity noted"] subset_scores_init)
              (add_batch_all ["no finding"] ["#"] subset_scores_init)
              (add_batch_all ["there is an opacity"] ["opacity noted"]
                 subset_scores_init),
            "Generated sentence: no finding" +:+ newline
            +:+ "Reference sentence: " +:+ newline +:+ newline
            +:+ "Generated sentence: there is an opacity" +:+ newline
            +:+ "Reference sentence: opacity noted" +:+ newline +:+ newline).
Proof.
  intros s'. subst s'.
  unfold update_language_model_scores,
    get_sents_for_normal_abnormal_selected_regions.
  cbn [lm_all lm_normal lm_abnormal].
  split; [reflexivity|]. split; [|split; [|split]].
  - intros r. case_decide as Hn; [|by left].
    intros [?|Hr]%fed_references_add_batch_all; [by left|right].
    by apply (masked_select_subseteq _ _ _ Hr).
  - intros r. case_decide as Hn; [|by left].
    intros [?|Hr]%fed_references_add_batch_all; [by left|right].
    by apply (masked_select_subseteq _ _ _ Hr).
  - intros g. unfold sentence_pair_text.
    rewrite decide_False by (intros H; by apply H). reflexivity.
  - vm_compute. reflexivity.
Qed.

(** C3, as stated, fails: in the scenario, the reference sentences the
    objects of subset [all] receive are [#; opacity noted], not the list with
    the marker replaced by the empty string, and the file does not show the
    marker. *)
Lemma sentinel_reaches_metrics :
  ∃ scores file,
    evaluate_language_model scenario_cfg [scenario_batch] = Some (scores, file)
    ∧ Forall (λ kv : string * text_metric,
                (kv.2).*2 = [["#"; "opacity noted"]]
                ∧ (kv.2).*2 ≠ [[""; "opacity noted"]])
             (lm_all scores)
    ∧ length (lm_all scores) = 5
    ∧ file
      = "Generated sentence: no finding" +:+ newline
        +:+ "Reference sentence: " +:+ newline +:+ newline
        +:+ "Generated sentence: there is an opacity" +:+ newline
        +:+ "Reference sentence: opacity noted" +:+ newline +:+ newline.
Proof.
  eexists _, _. split; [vm_compute; reflexivity|].
  split; [|split; reflexivity].
  repeat constructor; cbn; discriminate.
Qed.

(** ** C4 and C5: the top-region selector *)

(** [argmax_from] continues a scan: [done] is the part of the vector already
    seen, [best] its first maximal value, at index [best_i]. *)
Lemma argmax_from_spec (l done : list Qc) (best_i : nat) (best : Qc) :
  done !! best_i = Some best →
  (∀ j y, done !! j = Some y → (y ≤ best)%Qc) →
  (∀ j y, j < best_i → done !! j = Some y → (y < best)%Qc) →
  ∃ x, (done ++ l) !! argmax_from best_i best (length done) l = Some x
       ∧ (∀ j y, (done ++ l) !! j = Some y → (y ≤ x)%Qc)
       ∧ (∀ j y, j < argmax_from best_i best (length done) l →
                 (done ++ l) !! j = Some y → (y < x)%Qc).
Proof.
  revert done best_i best.
  induction l as [|x' l IH]; intros done best_i best Hbest Hmax Hfirst.
  - rewrite app_nil_r. cbn [argmax_from]. by exists best.
  - cbn [argmax_from].
    replace (done ++ x' :: l) with ((done ++ [x']) ++ l)
      by (by rewrite <- app_assoc).
    replace (S (length done)) with (length (done ++ [x']))
      by (rewrite length_app; cbn; lia).
    destruct (Qcltb best x') eqn:Hlt.
    + apply Qcltb_true in Hlt. apply IH.
      * by rewrite lookup_app_r, Nat.sub_diag.
      * intros j y [Hj|[_ Hj]]%lookup_app_Some.
        -- apply Qclt_le_weak, (Qcle_lt_trans _ best); [by eapply Hmax|done].
        -- destruct (j - length done) as [|k]; [|done].
           injection Hj as <-. apply Qcle_refl.
      * intros j y Hj Hy. rewrite lookup_app_l in Hy by done.
        apply (Qcle_lt_trans _ best); [by eapply Hmax|done].
    + apply Qcltb_false in Hlt.
      assert (Hbi : best_i < length done) by (by eapply lookup_lt_Some).
      apply IH.
      * by rewrite lookup_app_l.
      * intros j y [Hj|[_ Hj]]%lookup_app_Some; [by eapply Hmax|].
        destruct (j - length done) as [|k]; [|done]. by injection Hj as <-.
      * intros j y Hj Hy. rewrite lookup_app_l in Hy by lia. by eapply Hfirst.
Qed.

(** [argmax]: the index of the first maximal value. *)
Lemma argmax_spec (l : list Qc) (k : nat) :
  argmax l = Some k →
  ∃ x, l !! k = Some x
       ∧ (∀ j y, l !! j = Some y → (y ≤ x)%Qc)
       ∧ (∀ j y, j < k → l !! j = Some y → (y < x)%Qc).
Proof.
  destruct l as [|x0 l]; [done|]. cbn [argmax]. intros [= <-].
  apply (argmax_from_spec l [x0] 0 x0).
  - done.
  - intros [|j] y Hy; [|done]. injection Hy as <-. apply Qcle_refl.
  - intros j y Hj. lia.
Qed.

Lemma argmax_is_Some (l : list Qc) : l ≠ [] → is_Some (argmax l).
Proof. destruct l; [done|]. by eexists. Qed.

Lemma argmax_lt (l : list Qc) (k : nat) : argmax l = Some k → k < length l.
Proof.
  intros (x & Hx & _)%argmax_spec. by eapply lookup_lt_Some.
Qed.

Lemma one_hot_lookup (pc c : nat) (m : list Qc) :
  one_hot pc = Some m → c < num_regions →
  m !! c = Some (if decide (c = pc) then 1%Qc else 0%Qc).
Proof.
  unfold one_hot. intros Hm Hc.
  destruct (decide (pc < num_regions)) as [Hpc|Hpc];
    [rewrite option_guard_True in Hm by done
    |by rewrite option_guard_False in Hm by done].
  cbn [mbind option_bind] in Hm. apply (inj Some) in Hm as <-.
  change (map ?f ?l) with (f <$> l).
  rewrite list_lookup_fmap, lookup_seq_lt by done. done.
Qed.

Lemma one_hot_length (pc : nat) (m : list Qc) :
  one_hot pc = Some m → length m = num_regions.
Proof.
  unfold one_hot. intros Hm.
  destruct (decide (pc < num_regions)) as [Hpc|Hpc];
    [rewrite option_guard_True in Hm by done
    |by rewrite option_guard_False in Hm by done].
  cbn [mbind option_bind] in Hm. apply (inj Some) in Hm as <-.
  by rewrite length_map, length_seq.
Qed.

Lemma column_lookup {A} (c : nat) (t : list (list A)) (i : nat) :
  Forall (λ row, c < length row) t →
  column c t !! i = t !! i ≫= (.!! c).
Proof.
  intros Hall. revert i. induction Hall as [|row t Hrow Hall IH]; intros i.
  - done.
  - destruct (lookup_lt_is_Some_2 row c Hrow) as [x Hx].
    rewrite (column_cons c row t x Hx).
    destruct i as [|i]; cbn; [by rewrite Hx|apply IH].
Qed.

Lemma column_length {A} (c : nat) (t : list (list A)) :
  Forall (λ row, c < length row) t → length (column c t) = length t.
Proof.
  intros Hall. induction Hall as [|row t Hrow Hall IH]; [done|].
  destruct (lookup_lt_is_Some_2 row c Hrow) as [x Hx].
  rewrite (column_cons c row t x Hx). cbn. by rewrite IH.
Qed.

Lemma sum_indicator (c : nat) (pcs : list nat) :
  sum_Qc (map (λ pc, if decide (c = pc) then 1%Qc else 0%Qc) pcs)
  = Qc_of_nat (length (filter (λ pc, c = pc) pcs)).
Proof.
  unfold sum_Qc. induction pcs as [|pc pcs IH]; cbn [map foldr].
  - symmetry. apply Z2Qc_inj_0.
  - rewrite IH, filter_cons. destruct (decide (c = pc)).
    + cbn [length]. unfold Qc_of_nat.
      by rewrite Nat2Z.inj_succ, <- Z.add_1_l, Z2Qc_inj_add, Z2Qc_inj_1.
    + by rewrite Qcplus_0_l.
Qed.

Lemma sum_indicator_0 (c : nat) (pcs : list nat) :
  sum_Qc (map (λ pc, if decide (c = pc) then 1%Qc else 0%Qc) pcs) = 0%Qc
  ↔ c ∉ pcs.
Proof.
  rewrite sum_indicator. split.
  - intros H0 Hc.
    assert (Hf : c ∈ filter (λ pc, c = pc) pcs) by (by apply list_elem_of_filter).
    destruct (filter (λ pc, c = pc) pcs) as [|? ?] eqn:Hfl; [by inversion Hf|].
    by apply (Qc_of_nat_neq_0 (length (n :: l))).
  - intros Hc.
    replace (filter (λ pc, c = pc) pcs) with (@nil nat); [apply Z2Qc_inj_0|].
    symmetry. induction pcs as [|pc pcs IH]; [done|].
    rewrite filter_cons, decide_False by (intros ->; apply Hc; left).
    apply IH. intros Hin. apply Hc. by right.
Qed.

(** The selection rule, on an image with at least one proposal. The
    selector returns 36 feature vectors and 36 flags. If some proposal
    predicts region [r], the feature vector at [r] is the one of a proposal
    [i] predicting [r] whose score for [r] is maximal among the proposals
    predicting [r] and strictly above the score of each earlier one, and [r]
    is not flagged; if none does, [r] is flagged as not predicted. *)
Lemma top_region_features_image_spec {feature : Type}
    (pred_scores_image : list (list Qc)) (region_features_image : list feature) :
  pred_scores_image ≠ [] →
  length region_features_image = length pred_scores_image →
  image_scores_ok pred_scores_image →
  ∃ top class_not_predicted,
    top_region_features_image pred_scores_image region_features_image
    = Some (top, class_not_predicted)
    ∧ length top = num_regions
    ∧ length class_not_predicted = num_regions
    ∧ ∀ r, r < num_regions →
        ((∃ i x, predicts pred_scores_image i r x) →
           ∃ i x, predicts pred_scores_image i r x
             ∧ (∀ j y, predicts pred_scores_image j r y →
                       (y ≤ x)%Qc ∧ (j < i → (y < x)%Qc))
             ∧ top !! r = region_features_image !! i
             ∧ class_not_predicted !! r = Some false)
        ∧ ((¬ ∃ i x, predicts pred_scores_image i r x) →
           class_not_predicted !! r = Some true).
Proof.
  intros Hne Hlen Hok. unfold top_region_features_image.
  assert (Hrows : Forall (λ row : list Qc, length row = num_regions) pred_scores_image)
    by (eapply Forall_impl; [exact Hok|by intros row [? _]]).
  (* the predicted classes *)
  destruct (mapM_is_Some_2 argmax pred_scores_image) as [pcs Hpcs].
  { eapply Forall_impl; [exact Hrows|]. intros row Hrow. apply argmax_is_Some.
    intros ->. discriminate Hrow. }
  rewrite Hpcs. cbn [mbind option_bind]. apply mapM_Some_1 in Hpcs.
  assert (Hpcs_lt : Forall (λ pc, pc < num_regions) pcs).
  { apply Forall_lookup. intros i pc Hpc.
    destruct (Forall2_lookup_r _ _ _ _ _ Hpcs Hpc) as (row & Hrow & Harg).
    rewrite <- (Forall_lookup_1 _ _ _ _ Hrows Hrow). by apply argmax_lt. }
  (* the one-hot mask *)
  destruct (mapM_is_Some_2 one_hot pcs) as [masks Hmasks].
  { eapply Forall_impl; [exact Hpcs_lt|]. intros pc Hpc. unfold one_hot; cbn.
    rewrite option_guard_True by done. by eexists. }
  rewrite Hmasks. cbn [mbind option_bind]. apply mapM_Some_1 in Hmasks.
  assert (Hmrows : Forall (λ m : list Qc, length m = num_regions) masks).
  { apply Forall_lookup. intros i m Hm.
    destruct (Forall2_lookup_r _ _ _ _ _ Hmasks Hm) as (pc & _ & Hoh).
    by eapply one_hot_length. }
  set (pred_top := zip_with (zip_with Qcmult) pred_scores_image masks).
  assert (Hlen_pcs : length pcs = length pred_scores_image)
    by (symmetry; by eapply Forall2_length).
  assert (Hlen_masks : length masks = length pred_scores_image)
    by (rewrite <- Hlen_pcs; symmetry; by eapply Forall2_length).
  assert (Htop_rows : ∀ c, c < num_regions →
            Forall (λ row : list Qc, c < length row) pred_top).
  { intros c Hc. eapply Forall_impl;
      [by apply (Forall_length_zip_with Qcmult _ _ Hrows Hmrows)|].
    intros row Hrow. cbn in Hrow. lia. }
  assert (Hcol : ∀ c i row pc x, c < num_regions →
            pred_scores_image !! i = Some row → pcs !! i = Some pc →
            row !! c = Some x →
            column c pred_top !! i
            = Some (x * if decide (c = pc) then 1 else 0)%Qc).
  { intros c i row pc x Hc Hrow Hpc Hx.
    rewrite column_lookup by auto. unfold pred_top.
    destruct (Forall2_lookup_l _ _ _ _ _ Hmasks Hpc) as (m & Hm & Hoh).
    rewrite lookup_zip_with, Hrow, Hm. cbn [mbind option_bind].
    rewrite lookup_zip_with, Hx, (one_hot_lookup pc c m Hoh Hc). done. }
  assert (Hcol_len : ∀ c, c < num_regions →
            length (column c pred_top) = length pred_scores_image).
  { intros c Hc. rewrite column_length by auto.
    unfold pred_top. rewrite length_zip_with. lia. }
  (* the rows with the top scores *)
  destruct (mapM_is_Some_2 (λ c, argmax (column c pred_top)) (seq 0 num_regions))
    as [inds Hinds].
  { apply Forall_forall. intros c [_ Hc]%elem_of_seq. apply argmax_is_Some.
    intros Hnil. apply (f_equal length) in Hnil.
    rewrite Hcol_len in Hnil by lia. by destruct pred_scores_image. }
  rewrite Hinds. cbn [mbind option_bind]. apply mapM_Some_1 in Hinds.
  assert (Hinds_len : length inds = num_regions).
  { erewrite <- Forall2_length by exact Hinds. apply length_seq. }
  destruct (mapM_is_Some_2 (λ i, region_features_image !! i) inds) as [top Htop].
  { apply Forall_lookup. intros r i Hi.
    destruct (Forall2_lookup_r _ _ _ _ _ Hinds Hi) as (c & Hc & Harg).
    apply lookup_seq in Hc as [-> Hc]. apply lookup_lt_is_Some_2.
    rewrite Hlen, <- (Hcol_len r) by lia. by apply argmax_lt. }
  rewrite Htop. cbn [mbind option_bind]. apply mapM_Some_1 in Htop.
  eexists _, _. split; [reflexivity|].
  split; [erewrite <- Forall2_length by exact Htop; done|].
  split; [rewrite length_map; by apply sum_dim0_length_eq|].
  intros r Hr.
  (* the flag of region r *)
  assert (Hmcol : column r masks
                  = map (λ pc, if decide (r = pc) then 1%Qc else 0%Qc) pcs).
  { clear -Hmasks Hr. induction Hmasks as [|pc m pcs masks Hoh _ IH]; [done|].
    rewrite (column_cons r m masks _ (one_hot_lookup pc r m Hoh Hr)).
    cbn [map]. by rewrite IH. }
  assert (Hflag : map (λ n : Qc, bool_decide (n = 0%Qc)) (sum_dim0 masks) !! r
                  = Some (bool_decide (r ∉ pcs))).
  { change (map ?f ?l) with (f <$> l).
    rewrite list_lookup_fmap, sum_dim0_lookup, Hmcol by done.
    cbn [fmap option_fmap option_map]. f_equal.
    apply bool_decide_ext, sum_indicator_0. }
  (* who predicts r *)
  assert (Hpred : ∀ i x, predicts pred_scores_image i r x
            ↔ pcs !! i = Some r
              ∧ ∃ row, pred_scores_image !! i = Some row ∧ row !! r = Some x).
  { intros i x. split.
    - intros (row & Hrow & Harg & Hx).
      destruct (Forall2_lookup_l _ _ _ _ _ Hpcs Hrow) as (pc & Hpc & Harg').
      split; [congruence|by exists row].
    - intros [Hpc (row & Hrow & Hx)]. exists row. repeat split; try done.
      destruct (Forall2_lookup_l _ _ _ _ _ Hpcs Hrow) as (pc & Hpc' & Harg').
      congruence. }
  split.
  - intros (i0 & x0 & Hp0).
    pose proof Hp0 as Hp0'. apply Hpred in Hp0' as [Hpc0 (row0 & Hrow0 & Hx0)].
    assert (Hx0_pos : (0 < x0)%Qc).
    { destruct (Forall_lookup_1 _ _ _ _ Hok Hrow0) as [_ Hpos].
      by apply (Forall_lookup_1 _ _ _ _ Hpos Hx0). }
    assert (Hc0 : column r pred_top !! i0 = Some x0).
    { rewrite (Hcol r i0 row0 r x0) by done.
      by rewrite decide_True, Qcmult_1_r by done. }
    destruct (lookup_lt_is_Some_2 inds r) as [i Hi]; [lia|].
    destruct (Forall2_lookup_r _ _ _ _ _ Hinds Hi) as (c & Hc & Harg).
    apply lookup_seq in Hc as [-> _]. cbn in Harg.
    destruct (argmax_spec _ _ Harg) as (v & Hv & Hmax & Hfirst).
    assert (Hv_pos : (0 < v)%Qc)
      by (apply (Qclt_le_trans _ x0); [done|by eapply Hmax]).
    assert (Hi_lt : i < length pred_scores_image)
      by (rewrite <- (Hcol_len r) by done; by eapply lookup_lt_Some).
    destruct (lookup_lt_is_Some_2 pred_scores_image i Hi_lt) as [row Hrow].
    destruct (Forall2_lookup_l _ _ _ _ _ Hpcs Hrow) as (pc & Hpc & Harg').
    destruct (lookup_lt_is_Some_2 row r) as [x Hx];
      [by rewrite (Forall_lookup_1 _ _ _ _ Hrows Hrow)|].
    rewrite (Hcol r i row pc x Hr Hrow Hpc Hx) in Hv.
    destruct (decide (r = pc)) as [<-|Hne'].
    + rewrite Qcmult_1_r in Hv. injection Hv as ->.
      exists i, v. split; [by exists row|]. split; [|split].
      * intros j y Hpj. apply Hpred in Hpj as [Hpcj (rowj & Hrowj & Hy)].
        assert (Hcj : column r pred_top !! j = Some y).
        { rewrite (Hcol r j rowj r y) by done.
          by rewrite decide_True, Qcmult_1_r by done. }
        split; [by eapply Hmax|]. intros Hji. by eapply Hfirst.
      * destruct (Forall2_lookup_l _ _ _ _ _ Htop Hi) as (f & Hf & Hfi).
        by rewrite Hf, Hfi.
      * rewrite Hflag. f_equal. apply bool_decide_eq_false.
        intros Hnot. apply Hnot. by eapply list_elem_of_lookup_2.
    + rewrite Qcmult_0_r in Hv. injection Hv as <-.
      by destruct (Qclt_not_eq _ _ Hv_pos).
  - intros Hnone. rewrite Hflag. f_equal. apply bool_decide_eq_true.
    intros [i Hpc]%list_elem_of_lookup_1. apply Hnone.
    assert (Hi_lt : i < length pred_scores_image)
      by (rewrite <- Hlen_pcs; by eapply lookup_lt_Some).
    destruct (lookup_lt_is_Some_2 pred_scores_image i Hi_lt) as [row Hrow].
    destruct (lookup_lt_is_Some_2 row r) as [x Hx];
      [by rewrite (Forall_lookup_1 _ _ _ _ Hrows Hrow)|].
    exists i, x. apply Hpred. split; [done|by exists row].
Qed.

Lemma split_sizes_lengths {A} (l : list A) (sizes : list nat) (per : list (list A)) :
  split_sizes l sizes = Some per →
  Forall2 (λ n p, length p = n) sizes per.
Proof.
  revert l per. induction sizes as [|n sizes IH]; intros l per; cbn [split_sizes].
  - destruct l; [|done]. intros [= <-]. constructor.
  - destruct (decide (n ≤ length l)) as [Hn|Hn];
      [rewrite option_guard_True by done|by rewrite option_guard_False by done].
    cbn [mbind option_bind].
    destruct (split_sizes (drop n l) sizes) as [rest|] eqn:Hrest; [|done].
    cbn [mbind option_bind]. intros [= <-]. constructor.
    + rewrite length_take. lia.
    + by eapply IH.
Qed.

(** An image without proposals makes the selector fail. *)
Lemma top_region_features_image_no_proposals {feature : Type}
    (region_features_image : list feature) :
  top_region_features_image [] region_features_image = None.
Proof. reflexivity. Qed.

(** C4 fails on an image without proposals: whatever the batch, if one of
    its images has no proposal, [get_top_region_features] raises (in
    [torch.argmax] over the empty dimension of proposals) instead of
    returning 36 slots flagged as not detected. So does the batch made of
    one image without proposals. *)
Theorem get_top_region_features_zero_proposals {feature : Type}
    (softmax : list Qc → list Qc) :
  (∀ (region_features : list feature) (class_logits : list (list Qc))
     (proposals : list (list box)),
     [] ∈ proposals →
     get_top_region_features softmax region_features class_logits proposals = None)
  ∧ get_top_region_features softmax (@nil feature) [] [[]] = None.
Proof.
  split; [|reflexivity].
  intros region_features class_logits proposals Hin.
  unfold get_top_region_features.
  destruct (split_sizes (map (drop 1) _) _) as [scores|] eqn:Hscores;
    cbn [mbind option_bind]; [|reflexivity].
  destruct (split_sizes region_features _) as [feats|] eqn:Hfeats;
    cbn [mbind option_bind]; [|reflexivity].
  apply split_sizes_lengths in Hscores, Hfeats.
  apply list_elem_of_lookup_1 in Hin as [k Hk].
  assert (Hsize : map length proposals !! k = Some 0).
  { change (map ?f ?l) with (f <$> l). by rewrite list_lookup_fmap, Hk. }
  destruct (Forall2_lookup_l _ _ _ _ _ Hscores Hsize) as (s & Hs & Hs0).
  destruct (Forall2_lookup_l _ _ _ _ _ Hfeats Hsize) as (f & Hf & Hf0).
  apply nil_length_inv in Hs0 as ->.
  rewrite (mapM_None_2 _ (zip scores feats)); [done|].
  apply Exists_exists. exists ([], f). split; [|done].
  apply (list_elem_of_lookup_2 _ k). by rewrite lookup_zip_with, Hs, Hf.
Qed.

(** C5 fails on the same input as C4: for an image without proposals, no
    proposal predicts any region, and the selector raises instead of
    flagging the 36 regions as not predicted. *)
Theorem no_flags_without_proposals {feature : Type}
    (region_features_image : list feature) :
  (∀ r, ¬ ∃ i x, predicts [] i r x)
  ∧ top_region_features_image [] region_features_image = None.
Proof.
  split; [|reflexivity]. intros r (i & x & row & Hrow & _). done.
Qed.

Lemma split_sizes_Some {A} (l : list A) (sizes : list nat) :
  sum_list sizes = length l →
  ∃ per, split_sizes l sizes = Some per ∧ concat per = l.
Proof.
  revert l. induction sizes as [|n sizes IH]; intros l Hsum; cbn [split_sizes].
  - destruct l; [by exists []|done].
  - cbn in Hsum. rewrite option_guard_True by lia. cbn [mbind option_bind].
    destruct (IH (drop n l)) as (rest & -> & Hrest);
      [rewrite length_drop; lia|].
    cbn [mbind option_bind]. eexists; split; [reflexivity|].
    cbn [concat]. by rewrite Hrest, take_drop.
Qed.

Section selector_batch.
Context {feature : Type}.
Variable softmax : list Qc → list Qc.
Hypothesis softmax_length : ∀ l, length (softmax l) = length l.
Hypothesis softmax_positive : ∀ l, Forall (λ x, (0 < x)%Qc) (softmax l).

(** On a batch in which every image has at least one proposal, the
    selector returns, for each image, 36 feature vectors and 36 flags. *)
Lemma get_top_region_features_nonempty
    (region_features : list feature) (class_logits : list (list Qc))
    (proposals : list (list box)) :
  proposals ≠ [] →
  Forall (λ p, p ≠ []) proposals →
  Forall (λ row, length row = S num_regions) class_logits →
  length class_logits = sum_list (map length proposals) →
  length region_features = sum_list (map length proposals) →
  ∃ tops flags,
    get_top_region_features softmax region_features class_logits proposals
    = Some (tops, flags)
    ∧ length tops = length proposals
    ∧ length flags = length proposals
    ∧ Forall (λ t, length t = num_regions) tops
    ∧ Forall (λ f, length f = num_regions) flags.
Proof.
  intros Hne Hprop Hlogits Hn1 Hn2. unfold get_top_region_features.
  set (pred_scores := map (drop 1) (map softmax class_logits)).
  assert (Hok : image_scores_ok pred_scores).
  { unfold pred_scores, image_scores_ok.
    change (map ?f ?l) with (f <$> l).
    apply Forall_fmap, Forall_fmap, (Forall_impl _ _ _ Hlogits).
    intros row Hrow; cbn. split.
    - rewrite length_drop, softmax_length, Hrow. lia.
    - apply Forall_drop, softmax_positive. }
  destruct (split_sizes_Some pred_scores (map length proposals))
    as (per_s & Hs & Hcs).
  { unfold pred_scores. by rewrite !length_map. }
  destruct (split_sizes_Some region_features (map length proposals))
    as (per_f & Hf & Hcf); [done|].
  rewrite Hs, Hf. cbn [mbind option_bind].
  apply split_sizes_lengths in Hs, Hf.
  assert (Hlen_s : length per_s = length proposals)
    by (erewrite <- Forall2_length by exact Hs; apply length_map).
  assert (Hlen_f : length per_f = length proposals)
    by (erewrite <- Forall2_length by exact Hf; apply length_map).
  assert (Hall : Forall (λ sf : list (list Qc) * list feature,
            ∃ top fl, top_region_features_image sf.1 sf.2 = Some (top, fl)
                      ∧ length top = num_regions ∧ length fl = num_regions)
            (zip per_s per_f)).
  { apply Forall_lookup. intros k [s f] Hk.
    apply lookup_zip_with_Some in Hk as (s' & f' & [= <- <-] & Hks & Hkf).
    destruct (Forall2_lookup_r _ _ _ _ _ Hs Hks) as (n & Hn & Hsn).
    destruct (Forall2_lookup_r _ _ _ _ _ Hf Hkf) as (n' & Hn' & Hfn).
    assert (n' = n) as -> by congruence.
    change (map ?f ?l) with (f <$> l) in Hn.
    rewrite list_lookup_fmap in Hn.
    destruct (proposals !! k) as [p|] eqn:Hp; [|done].
    injection Hn as <-.
    destruct (top_region_features_image_spec s f)
      as (top & fl & Heq & Htl & Hfl & _).
    - intros ->. apply (Forall_lookup_1 _ _ _ _ Hprop Hp).
      by apply nil_length_inv.
    - cbn [fst snd]. congruence.
    - unfold image_scores_ok in *. rewrite <- Hcs in Hok.
      apply Forall_concat in Hok. by apply (Forall_lookup_1 _ _ _ _ Hok Hks).
    - by exists top, fl. }
  destruct (mapM_is_Some_2
              (λ sf : list (list Qc) * list feature,
                 top_region_features_image sf.1 sf.2) (zip per_s per_f))
    as [per_image Hper].
  { eapply Forall_impl; [exact Hall|].
    intros sf (top & fl & Heq & _). unfold compose. rewrite Heq. by eexists. }
  rewrite Hper. cbn [mbind option_bind]. apply mapM_Some_1 in Hper.
  assert (Hlen_p : length per_image = length proposals).
  { erewrite <- Forall2_length by exact Hper. rewrite length_zip_with. lia. }
  rewrite option_guard_True; last first.
  { intros ->. by destruct proposals. }
  cbn [mbind option_bind]. eexists _, _. split; [reflexivity|].
  rewrite !length_fmap. repeat split; try done.
  - apply Forall_fmap, Forall_lookup. intros k [top fl] Hk.
    destruct (Forall2_lookup_r _ _ _ _ _ Hper Hk) as (sf & Hsf & Heq).
    destruct (Forall_lookup_1 _ _ _ _ Hall Hsf) as (top' & fl' & Heq' & Ht & _).
    cbn. congruence.
  - apply Forall_fmap, Forall_lookup. intros k [top fl] Hk.
    destruct (Forall2_lookup_r _ _ _ _ _ Hper Hk) as (sf & Hsf & Heq).
    destruct (Forall_lookup_1 _ _ _ _ Hall Hsf) as (top' & fl' & Heq' & _ & Hl).
    cbn. congruence.
Qed.
End selector_batch.

(** * Further properties of the code *)

(** ** The top-region selector *)

Ltac solve_positive :=
  repeat (constructor; [reflexivity|]); constructor.

Ltac solve_scores_ok :=
  repeat (constructor; [split; [reflexivity | solve_positive]|]); constructor.

(** What a successful run of the selector on one image went through: the
    predicted classes, the one-hot masks, the rows with the top score of
    each class, and the features looked up at these rows. *)
Lemma top_region_features_image_inv {feature : Type}
    (pred_scores_image : list (list Qc)) (region_features_image : list feature)
    (top : list feature) (class_not_predicted : list bool) :
  top_region_features_image pred_scores_image region_features_image
  = Some (top, class_not_predicted) →
  ∃ pcs masks inds,
    Forall2 (λ row pc, argmax row = Some pc) pred_scores_image pcs
    ∧ Forall2 (λ pc m, one_hot pc = Some m) pcs masks
    ∧ Forall2 (λ c i,
         argmax (column c (zip_with (zip_with Qcmult) pred_scores_image masks))
         = Some i) (seq 0 num_regions) inds
    ∧ Forall2 (λ i f, region_features_image !! i = Some f) inds top
    ∧ class_not_predicted
      = map (λ n : Qc, bool_decide (n = 0%Qc)) (sum_dim0 masks).
Proof.
  unfold top_region_features_image. intros H.
  destruct (mapM argmax pred_scores_image) as [pcs|] eqn:Hpcs; [|done].
  cbn [mbind option_bind] in H.
  destruct (mapM one_hot pcs) as [masks|] eqn:Hmasks; [|done].
  cbn [mbind option_bind] in H.
  destruct (mapM _ (seq 0 num_regions)) as [inds|] eqn:Hinds; [|done].
  cbn [mbind option_bind] in H.
  destruct (mapM _ inds) as [top'|] eqn:Htop; [|done].
  cbn [mbind option_bind] in H. injection H as <- <-.
  exists pcs, masks, inds.
  apply mapM_Some_1 in Hpcs, Hmasks, Hinds, Htop. done.
Qed.

(** X1. On an image with at least one proposal, whose scores are positive,
    the selector returns 36 feature vectors and 36 flags; for a region some
    proposal predicts, the feature vector is the one of the first proposal
    with the highest score among those predicting the region, and the region
    is not flagged; a region no proposal predicts is flagged. *)
Theorem selected_feature_is_first_best_predictor {feature : Type}
    (pred_scores_image : list (list Qc)) (region_features_image : list feature) :
  pred_scores_image ≠ [] →
  length region_features_image = length pred_scores_image →
  image_scores_ok pred_scores_image →
  ∃ top class_not_predicted,
    top_region_features_image pred_scores_image region_features_image
    = Some (top, class_not_predicted)
    ∧ length top = num_regions
    ∧ length class_not_predicted = num_regions
    ∧ ∀ r, r < num_regions →
        ((∃ i x, predicts pred_scores_image i r x) →
           ∃ i x, predicts pred_scores_image i r x
             ∧ (∀ j y, predicts pred_scores_image j r y →
                       (y ≤ x)%Qc ∧ (j < i → (y < x)%Qc))
             ∧ top !! r = region_features_image !! i
             ∧ class_not_predicted !! r = Some false)
        ∧ ((¬ ∃ i x, predicts pred_scores_image i r x) →
           class_not_predicted !! r = Some true).
Proof. apply top_region_features_image_spec. Qed.

Lemma selected_feature_is_first_best_predictor_witness :
  ∃ top class_not_predicted,
    top_region_features_image three_proposals [10; 20; 30]
    = Some (top, class_not_predicted)
    ∧ length top = num_regions
    ∧ length class_not_predicted = num_regions
    ∧ ∀ r, r < num_regions →
        ((∃ i x, predicts three_proposals i r x) →
           ∃ i x, predicts three_proposals i r x
             ∧ (∀ j y, predicts three_proposals j r y →
                       (y ≤ x)%Qc ∧ (j < i → (y < x)%Qc))
             ∧ top !! r = [10; 20; 30] !! i
             ∧ class_not_predicted !! r = Some false)
        ∧ ((¬ ∃ i x, predicts three_proposals i r x) →
           class_not_predicted !! r = Some true).
Proof.
  apply (selected_feature_is_first_best_predictor three_proposals [10; 20; 30]).
  - discriminate.
  - reflexivity.
  - unfold image_scores_ok, three_proposals. solve_scores_ok.
Defined.

Lemma pred_top_column_lookup (pred_scores_image : list (list Qc))
    (pcs : list nat) (masks : list (list Qc)) (c i : nat) (row : list Qc)
    (pc : nat) (x : Qc) :
  Forall (λ row : list Qc, length row = num_regions) pred_scores_image →
  Forall2 (λ pc m, one_hot pc = Some m) pcs masks →
  c < num_regions →
  pred_scores_image !! i = Some row → pcs !! i = Some pc → row !! c = Some x →
  column c (zip_with (zip_with Qcmult) pred_scores_image masks) !! i
  = Some (x * if decide (c = pc) then 1 else 0)%Qc.
Proof.
  intros Hrows Hmasks Hc Hrow Hpc Hx.
  assert (Hmrows : Forall (λ m : list Qc, length m = num_regions) masks).
  { apply Forall_lookup. intros k m Hm.
    destruct (Forall2_lookup_r _ _ _ _ _ Hmasks Hm) as (pc' & _ & Hoh).
    by eapply one_hot_length. }
  rewrite column_lookup.
  - destruct (Forall2_lookup_l _ _ _ _ _ Hmasks Hpc) as (m & Hm & Hoh).
    rewrite lookup_zip_with, Hrow, Hm. cbn [mbind option_bind].
    by rewrite lookup_zip_with, Hx, (one_hot_lookup pc c m Hoh Hc).
  - eapply Forall_impl;
      [by apply (Forall_length_zip_with Qcmult _ _ Hrows Hmrows)|].
    intros r Hr. cbn in Hr. lia.
Qed.

(** X2. The slot of a region that no proposal predicts holds the feature
    vector of the first proposal of the image (the arg-max of a column of
    zeros is row 0), and the region is flagged as not predicted. *)
Theorem unpredicted_region_gets_first_proposal {feature : Type}
    (pred_scores_image : list (list Qc)) (region_features_image : list feature) :
  pred_scores_image ≠ [] →
  length region_features_image = length pred_scores_image →
  image_scores_ok pred_scores_image →
  ∃ top class_not_predicted,
    top_region_features_image pred_scores_image region_features_image
    = Some (top, class_not_predicted)
    ∧ ∀ r, r < num_regions →
        (¬ ∃ i x, predicts pred_scores_image i r x) →
        class_not_predicted !! r = Some true
        ∧ top !! r = region_features_image !! 0.
Proof.
  intros Hne Hlen Hok.
  destruct (top_region_features_image_spec pred_scores_image
              region_features_image Hne Hlen Hok)
    as (top & fl & Heq & _ & _ & Hspec).
  exists top, fl. split; [done|]. intros r Hr Hnone.
  split; [by apply Hspec|].
  destruct (top_region_features_image_inv _ _ _ _ Heq)
    as (pcs & masks & inds & Hpcs & Hmasks & Hinds & Htop & _).
  assert (Hrows : Forall (λ row : list Qc, length row = num_regions) pred_scores_image)
    by (eapply Forall_impl; [exact Hok|by intros row [? _]]).
  assert (Hir : seq 0 num_regions !! r = Some r) by (by apply lookup_seq_lt).
  destruct (Forall2_lookup_l _ _ _ _ _ Hinds Hir) as (i & Hi & Harg).
  destruct (Forall2_lookup_l _ _ _ _ _ Htop Hi) as (f & Hf & Hfi).
  rewrite Hf, <- Hfi. f_equal.
  destruct (argmax_spec _ _ Harg) as (v & Hv & _ & Hfirst).
  (* every entry of the column is 0 *)
  assert (Hzero : ∀ j y,
            column r (zip_with (zip_with Qcmult) pred_scores_image masks) !! j
            = Some y → y = 0%Qc).
  { intros j y Hy.
    assert (Hj : j < length pred_scores_image).
    { apply lookup_lt_Some in Hy. rewrite column_length in Hy.
      - rewrite length_zip_with in Hy. lia.
      - apply Forall_lookup. intros k rw Hk.
        apply lookup_zip_with_Some in Hk as (s & m & -> & Hs & Hm).
        destruct (Forall2_lookup_r _ _ _ _ _ Hmasks Hm) as (pc & _ & Hoh).
        rewrite length_zip_with, (Forall_lookup_1 _ _ _ _ Hrows Hs),
          (one_hot_length _ _ Hoh). lia. }
    destruct (lookup_lt_is_Some_2 pred_scores_image j Hj) as [row Hrow].
    destruct (Forall2_lookup_l _ _ _ _ _ Hpcs Hrow) as (pc & Hpc & Hargrow).
    destruct (lookup_lt_is_Some_2 row r) as [x Hx];
      [by rewrite (Forall_lookup_1 _ _ _ _ Hrows Hrow)|].
    rewrite (pred_top_column_lookup _ _ _ r j row pc x) in Hy by done.
    destruct (decide (r = pc)) as [->|Hne'].
    - destruct Hnone. exists j, x, row. done.
    - injection Hy as <-. apply Qcmult_0_r. }
  destruct i as [|i]; [done|].
  assert (H0 : is_Some (column r (zip_with (zip_with Qcmult) pred_scores_image masks)
                          !! 0)).
  { apply lookup_lt_is_Some_2. apply lookup_lt_Some in Hv. lia. }
  destruct H0 as [y0 Hy0].
  pose proof (Hfirst 0 y0 ltac:(lia) Hy0) as Hlt.
  rewrite (Hzero _ _ Hy0), (Hzero _ _ Hv) in Hlt.
  by destruct (Qclt_not_eq _ _ Hlt).
Qed.

Lemma unpredicted_region_gets_first_proposal_witness :
  ∃ top class_not_predicted,
    top_region_features_image three_proposals [10; 20; 30]
    = Some (top, class_not_predicted)
    ∧ ∀ r, r < num_regions →
        (¬ ∃ i x, predicts three_proposals i r x) →
        class_not_predicted !! r = Some true
        ∧ top !! r = [10; 20; 30] !! 0.
Proof.
  apply (unpredicted_region_gets_first_proposal three_proposals [10; 20; 30]).
  - discriminate.
  - reflexivity.
  - unfold image_scores_ok, three_proposals. solve_scores_ok.
Defined.

Lemma split_sizes_sum {A} (l : list A) (sizes : list nat) (per : list (list A)) :
  split_sizes l sizes = Some per → sum_list sizes = length l.
Proof.
  revert l per. induction sizes as [|n sizes IH]; intros l per; cbn [split_sizes].
  - by destruct l.
  - destruct (decide (n ≤ length l)) as [Hn|Hn];
      [rewrite option_guard_True by done|by rewrite option_guard_False by done].
    cbn [mbind option_bind].
    destruct (split_sizes (drop n l) sizes) as [rest|] eqn:Hrest; [|done].
    intros _. apply IH in Hrest. rewrite length_drop in Hrest. cbn. lia.
Qed.

(** X3. Whenever the selector returns, the feature vectors selected for an
    image are feature vectors of the proposals of that very image: with the
    features split by the numbers of proposals per image, the selection for
    image [k] lies in chunk [k]. *)
Theorem selected_features_come_from_own_image {feature : Type}
    (softmax : list Qc → list Qc) (region_features : list feature)
    (class_logits : list (list Qc)) (proposals : list (list box))
    (tops : list (list feature)) (flags : list (list bool)) :
  get_top_region_features softmax region_features class_logits proposals
  = Some (tops, flags) →
  ∃ chunks,
    split_sizes region_features (map length proposals) = Some chunks
    ∧ concat chunks = region_features
    ∧ Forall2 (λ chunk top, top ⊆ chunk) chunks tops.
Proof.
  unfold get_top_region_features. intros H.
  destruct (split_sizes (map (drop 1) _) _) as [scores|] eqn:Hscores; [|done].
  cbn [mbind option_bind] in H.
  destruct (split_sizes region_features _) as [chunks|] eqn:Hchunks; [|done].
  cbn [mbind option_bind] in H.
  destruct (mapM _ (zip scores chunks)) as [per_image|] eqn:Hper; [|done].
  cbn [mbind option_bind] in H.
  destruct (decide (per_image ≠ [])) as [Hne|Hne];
    [rewrite option_guard_True in H by done
    |by rewrite option_guard_False in H by done].
  cbn [mbind option_bind] in H. injection H as <- <-.
  exists chunks. split; [done|]. split.
  { destruct (split_sizes_Some region_features (map length proposals))
      as (per & Hper' & Hc); [by eapply split_sizes_sum|]. congruence. }
  apply mapM_Some_1 in Hper.
  pose proof (Forall2_length _ _ _ Hper) as Hlen.
  rewrite length_zip_with in Hlen.
  apply split_sizes_lengths, Forall2_length in Hscores, Hchunks.
  apply Forall2_same_length_lookup_2.
  - rewrite length_fmap. lia.
  - intros k chunk top Hk Htop.
    rewrite list_lookup_fmap in Htop.
    destruct (per_image !! k) as [[top' fl]|] eqn:Hpk; [|done].
    injection Htop as <-.
    destruct (Forall2_lookup_r _ _ _ _ _ Hper Hpk) as ([s f] & Hsf & Heq).
    apply lookup_zip_with_Some in Hsf as (s' & f' & [= <- <-] & Hs & Hf).
    assert (f = chunk) as -> by congruence. cbn [fst snd] in Heq.
    destruct (top_region_features_image_inv _ _ _ _ Heq)
      as (_ & _ & inds & _ & _ & _ & Hlook & _).
    intros x [j Hj]%list_elem_of_lookup_1.
    destruct (Forall2_lookup_r _ _ _ _ _ Hlook Hj) as (i & _ & Hi).
    by eapply list_elem_of_lookup_2.
Qed.

Lemma selected_features_come_from_own_image_witness :
  ∃ tops flags chunks,
    get_top_region_features (λ l, map (λ _, 1%Qc) l) [10; 20; 30]
      (replicate 3 (replicate 37 0%Qc))
      [[unit_box; unit_box]; [unit_box]]
    = Some (tops, flags)
    ∧ split_sizes [10; 20; 30] (map length [[unit_box; unit_box]; [unit_box]])
      = Some chunks
    ∧ concat chunks = [10; 20; 30]
    ∧ Forall2 (λ chunk top, top ⊆ chunk) chunks tops.
Proof.
  eexists _, _.
  assert (Heq : get_top_region_features (λ l, map (λ _, 1%Qc) l) [10; 20; 30]
            (replicate 3 (replicate 37 0%Qc))
            [[unit_box; unit_box]; [unit_box]]
          = Some (replicate 36 10 :: [replicate 36 30],
                  replicate 2 (false :: replicate 35 true)))
    by (vm_compute; reflexivity).
  destruct (selected_features_come_from_own_image _ _ _ _ _ _ Heq)
    as (chunks & H1 & H2 & H3).
  exists chunks. done.
Defined.

(** X4. The selector raises when the number of rows of logits, or of
    feature vectors, is not the total number of proposals of the batch
    ([torch.split] refuses sizes that do not sum to the length). *)
Theorem get_top_region_features_size_mismatch {feature : Type}
    (softmax : list Qc → list Qc) (region_features : list feature)
    (class_logits : list (list Qc)) (proposals : list (list box)) :
  length class_logits ≠ sum_list (map length proposals)
  ∨ length region_features ≠ sum_list (map length proposals) →
  get_top_region_features softmax region_features class_logits proposals = None.
Proof.
  intros Hmis. unfold get_top_region_features.
  destruct (split_sizes (map (drop 1) _) _) as [scores|] eqn:Hscores;
    cbn [mbind option_bind]; [|reflexivity].
  destruct (split_sizes region_features _) as [chunks|] eqn:Hchunks;
    cbn [mbind option_bind]; [|reflexivity].
  apply split_sizes_sum in Hscores, Hchunks.
  rewrite !length_map in Hscores. destruct Hmis as [Hm|Hm]; by destruct Hm.
Qed.

Lemma get_top_region_features_size_mismatch_witness :
  get_top_region_features (λ l, map (λ _, 1%Qc) l) [10; 20]
    (replicate 3 (replicate 37 0%Qc)) [[unit_box; unit_box]; [unit_box]]
  = None.
Proof.
  apply (get_top_region_features_size_mismatch (λ l, map (λ _, 1%Qc) l) [10; 20]
           (replicate 3 (replicate 37 0%Qc)) [[unit_box; unit_box]; [unit_box]]).
  right. cbn. lia.
Defined.

(** X5. If every proposal of an image predicts the same region, that
    region is the only one not flagged: the flags are true exactly at the
    other 35 regions. *)
Theorem only_predicted_region_is_detected {feature : Type}
    (pred_scores_image : list (list Qc)) (region_features_image : list feature)
    (r0 : nat) :
  pred_scores_image ≠ [] →
  length region_features_image = length pred_scores_image →
  image_scores_ok pred_scores_image →
  Forall (λ row, argmax row = Some r0) pred_scores_image →
  ∃ top class_not_predicted,
    top_region_features_image pred_scores_image region_features_image
    = Some (top, class_not_predicted)
    ∧ class_not_predicted
      = map (λ r, bool_decide (r ≠ r0)) (seq 0 num_regions).
Proof.
  intros Hne Hlen Hok Hall.
  destruct (top_region_features_image_spec pred_scores_image
              region_features_image Hne Hlen Hok)
    as (top & fl & Heq & _ & Hfl & Hspec).
  exists top, fl. split; [done|].
  apply list_eq_same_length with num_regions;
    [by rewrite length_map, length_seq|done|].
  intros r b b' Hr Hb Hb'.
  change (map ?f ?l) with (f <$> l) in Hb'.
  rewrite list_lookup_fmap, lookup_seq_lt in Hb' by done.
  injection Hb' as <-.
  destruct (Hspec r Hr) as [Hyes Hno].
  destruct (decide (r = r0)) as [->|Hne0].
  - rewrite bool_decide_eq_false_2 by (intros H; by apply H).
    destruct pred_scores_image as [|row rows]; [done|].
    apply Forall_cons in Hall as [Harg _].
    destruct Hyes as (i & x & _ & _ & _ & Hfalse); [|congruence].
    destruct (lookup_lt_is_Some_2 row r0) as [x Hx]; [by apply argmax_lt|].
    exists 0, x, row. done.
  - rewrite bool_decide_eq_true_2 by done.
    rewrite Hno in Hb; [congruence|].
    intros (i & x & row & Hrow & Harg & _).
    pose proof (Forall_lookup_1 _ _ _ _ Hall Hrow). congruence.
Qed.

Lemma only_predicted_region_is_detected_witness :
  ∃ top class_not_predicted,
    top_region_features_image two_proposals_one_region [10; 20]
    = Some (top, class_not_predicted)
    ∧ class_not_predicted
      = map (λ r, bool_decide (r ≠ 1)) (seq 0 num_regions).
Proof.
  apply (only_predicted_region_is_detected two_proposals_one_region [10; 20] 1).
  - discriminate.
  - reflexivity.
  - unfold image_scores_ok, two_proposals_one_region. solve_scores_ok.
  - repeat constructor.
Defined.

(** X6. With a softmax that keeps the length of a row and yields positive
    scores, on a batch in which every image has at least one proposal, rows
    of logits have 37 entries, and the numbers of rows of logits and of
    feature vectors are the number of proposals, the selector returns, and
    returns for every image exactly 36 feature vectors and 36 flags. *)
Theorem get_top_region_features_returns_36_slots {feature : Type}
    (softmax : list Qc → list Qc) (region_features : list feature)
    (class_logits : list (list Qc)) (proposals : list (list box)) :
  (∀ l, length (softmax l) = length l) →
  (∀ l, Forall (λ x, (0 < x)%Qc) (softmax l)) →
  proposals ≠ [] →
  Forall (λ p, p ≠ []) proposals →
  Forall (λ row, length row = S num_regions) class_logits →
  length class_logits = sum_list (map length proposals) →
  length region_features = sum_list (map length proposals) →
  ∃ tops flags,
    get_top_region_features softmax region_features class_logits proposals
    = Some (tops, flags)
    ∧ length tops = length proposals
    ∧ length flags = length proposals
    ∧ Forall (λ t, length t = num_regions) tops
    ∧ Forall (λ f, length f = num_regions) flags.
Proof. intros Hlen Hpos. by apply get_top_region_features_nonempty. Qed.

Lemma get_top_region_features_returns_36_slots_witness :
  ∃ tops flags,
    get_top_region_features (λ l, map (λ _, 1%Qc) l) [10; 20; 30]
      (replicate 3 (replicate 37 0%Qc)) [[unit_box; unit_box]; [unit_box]]
    = Some (tops, flags)
    ∧ length tops = length [[unit_box; unit_box]; [unit_box]]
    ∧ length flags = length [[unit_box; unit_box]; [unit_box]]
    ∧ Forall (λ t, length t = num_regions) tops
    ∧ Forall (λ f, length f = num_regions) flags.
Proof.
  apply (get_top_region_features_returns_36_slots (λ l, map (λ _, 1%Qc) l)
           [10; 20; 30] (replicate 3 (replicate 37 0%Qc))
           [[unit_box; unit_box]; [unit_box]]).
  - intros l. apply length_map.
  - intros l. induction l; constructor; [reflexivity|assumption].
  - discriminate.
  - repeat constructor; discriminate.
  - repeat constructor.
  - reflexivity.
  - reflexivity.
Defined.

(** ** The detector scores over a pass *)

Lemma zip_with_Qcplus_assoc (a b c : list Qc) :
  zip_with Qcplus a (zip_with Qcplus b c) = zip_with Qcplus (zip_with Qcplus a b) c.
Proof.
  revert b c. induction a as [|x a IH]; intros [|y b] [|z c]; try done.
  cbn [zip_with]. by rewrite IH, Qcplus_assoc.
Qed.

Lemma zip_with_Qcplus_zeros (l : list Qc) :
  length l = num_regions → zip_with Qcplus (replicate num_regions 0%Qc) l = l.
Proof.
  generalize num_regions. intros n. revert l.
  induction n as [|n IH]; intros [|x l] Hl; try done.
  cbn [replicate zip_with]. injection Hl as Hl. by rewrite IH, Qcplus_0_l.
Qed.

Lemma sum_dim0_app (t u : list (list Qc)) :
  Forall (λ row, length row = num_regions) u →
  sum_dim0 (t ++ u) = zip_with Qcplus (sum_dim0 t) (sum_dim0 u).
Proof.
  intros Hu. unfold sum_dim0. induction t as [|row t IH]; cbn [app foldr].
  - symmetry. apply zip_with_Qcplus_zeros. by apply sum_dim0_length_eq.
  - by rewrite IH, zip_with_Qcplus_assoc.
Qed.

Lemma shape_app {A} (n m : nat) (t u : list (list A)) :
  shape n t → shape m u → shape (n + m) (t ++ u).
Proof.
  intros [Hn Ht] [Hm Hu]. split; [rewrite length_app; lia|by apply Forall_app].
Qed.

Lemma shape_rows {A} (n : nat) (t : list (list A)) :
  shape n t → Forall (λ row, length row = num_regions) t.
Proof. by intros [_ ?]. Qed.

Lemma shape_length {A} (n : nat) (t : list (list A)) : shape n t → length t = n.
Proof. by intros [? _]. Qed.

(** Two updates in a row are one update with the two batches put
    together. *)
Lemma update_object_detector_metrics_app (s : obj_detector_scores) (n m : nat)
    (p1 g1 p2 g2 : list (list box)) (d1 d2 : list (list bool)) :
  shape n p1 → shape n g1 → shape n d1 →
  shape m p2 → shape m g2 → shape m d2 →
  update_object_detector_metrics (update_object_detector_metrics s p1 g1 d1) p2 g2 d2
  = update_object_detector_metrics s (p1 ++ p2) (g1 ++ g2) (d1 ++ d2).
Proof.
  intros Hp1 Hg1 Hd1 Hp2 Hg2 Hd2.
  unfold update_object_detector_metrics,
    compute_intersection_and_union_area_per_region.
  cbn [sum_intersection_area_per_region sum_union_area_per_region
       sum_region_detected].
  assert (Hl1 : length p1 = length g1)
    by (by rewrite (shape_length n p1), (shape_length n g1)).
  assert (Hl2 : length (zip_with zip p1 g1) = length d1)
    by (rewrite length_zip_with, (shape_length n p1), (shape_length n g1),
          (shape_length n d1) by done; lia).
  rewrite !zip_with_app by done.
  rewrite map_app.
  rewrite !sum_dim0_app, !zip_with_Qcplus_assoc; [done|..].
  - apply Forall_fmap, (Forall_impl _ _ _ (shape_rows m d2 Hd2)).
    intros row Hrow. cbn. by rewrite length_map.
  - apply (Forall_length_zip_with entry_union_area);
      by eapply shape_rows.
  - apply (Forall_length_zip_with
             (λ (e : box * box) dd, entry_intersection_area e.1 e.2 dd));
      [|by eapply shape_rows].
    apply (Forall_length_zip_with pair); by eapply shape_rows.
Qed.

Lemma all_class_detected_shape (val_dl : list val_batch) :
  Forall detector_batch_ok val_dl →
  shape (total_images val_dl) (all_top_region_boxes val_dl)
  ∧ shape (total_images val_dl) (all_gt_boxes val_dl)
  ∧ shape (total_images val_dl) (all_class_detected val_dl).
Proof.
  intros Hall. induction Hall as [|b val_dl (Hp & Hg & Hd) Hall (IHp & IHg & IHd)].
  - repeat split; constructor.
  - unfold all_top_region_boxes, all_gt_boxes, all_class_detected, total_images.
    cbn [map concat sum_list sum_list_with]. unfold id.
    split; [|split]; by apply shape_app.
Qed.

(** The scores after the loop, from a state that holds the scores of the
    images [P], [G], [D] seen before. *)
Lemma foldl_val_step_obj_detector_scores (val_dl : list val_batch)
    (st : val_state) (N : nat) (P G : list (list box)) (D : list (list bool)) :
  Forall detector_batch_ok val_dl →
  shape N P → shape N G → shape N D →
  vs_obj_detector_scores st
  = update_object_detector_metrics obj_detector_scores_init P G D →
  vs_obj_detector_scores (foldl val_step st val_dl)
  = update_object_detector_metrics obj_detector_scores_init
      (P ++ all_top_region_boxes val_dl) (G ++ all_gt_boxes val_dl)
      (D ++ all_class_detected val_dl).
Proof.
  intros Hall. revert st N P G D.
  induction Hall as [|b val_dl (Hp & Hg & Hd) Hall IH];
    intros st N P G D HP HG HD Hst; cbn [foldl].
  - unfold all_top_region_boxes, all_gt_boxes, all_class_detected.
    cbn [map concat]. by rewrite !app_nil_r.
  - unfold all_top_region_boxes, all_gt_boxes, all_class_detected.
    cbn [map concat]. rewrite !app_assoc.
    apply (IH _ (N + vb_batch_size b)); try (by apply shape_app).
    cbn [val_step vs_obj_detector_scores]. rewrite Hst.
    by apply (update_object_detector_metrics_app _ N (vb_batch_size b)).
Qed.

Lemma region_entries_length (n : nat) (pred_boxes gt_boxes : list (list box))
    (class_detected : list (list bool)) (r : nat) :
  shape n pred_boxes → shape n gt_boxes → shape n class_detected →
  r < num_regions →
  length (column r pred_boxes) = n ∧ length (column r gt_boxes) = n
  ∧ length (column r class_detected) = n
  ∧ length (region_entries r pred_boxes gt_boxes class_detected) = n.
Proof.
  intros [Hnp Hp] [Hng Hg] [Hnd Hd] Hr.
  assert (Hlt : ∀ A (t : list (list A)),
            Forall (λ row, length row = num_regions) t →
            Forall (λ row, r < length row) t).
  { intros A t Ht. eapply Forall_impl; [exact Ht|]. intros row Hrow. cbn in Hrow. lia. }
  unfold region_entries. rewrite !length_zip_with, !column_length by auto. lia.
Qed.

Lemma union_sum_lookup (n : nat) (pred_boxes gt_boxes : list (list box))
    (class_detected : list (list bool)) (r : nat) :
  shape n pred_boxes → shape n gt_boxes → shape n class_detected →
  r < num_regions →
  (compute_intersection_and_union_area_per_region
     pred_boxes gt_boxes class_detected).2 !! r
  = Some (sum_Qc (map (λ e : box * box * bool, entry_union_area e.1.1 e.1.2)
                    (region_entries r pred_boxes gt_boxes class_detected))).
Proof.
  intros Hp Hg Hd Hr.
  destruct (region_entries_length n _ _ _ r Hp Hg Hd Hr) as (Hlp & Hlg & Hld & _).
  unfold compute_intersection_and_union_area_per_region; cbn [snd].
  rewrite sum_dim0_lookup;
    [|apply Forall_length_zip_with; by eapply shape_rows|done].
  rewrite column_zip_with by (done || by eapply shape_rows).
  unfold region_entries. do 2 f_equal.
  revert Hlp Hlg Hld. clear.
  generalize (column r pred_boxes) as l, (column r gt_boxes) as k,
    (column r class_detected) as d.
  intros l k d. revert n k d.
  induction l as [|x l IH]; intros n [|y k] [|b d] Hl Hk Hd; try done;
    try (cbn in *; lia).
  cbn. f_equal. apply (IH (pred n)); cbn in *; lia.
Qed.

(** The IoU of a region in the report of a pass. *)
Lemma avg_iou_lookup (val_dl : list val_batch) (res : val_result) (r : nat) :
  Forall detector_batch_ok val_dl →
  get_val_losses_and_other_metrics val_dl = Some res →
  r < num_regions →
  let entries :=
    region_entries r (all_top_region_boxes val_dl) (all_gt_boxes val_dl)
      (all_class_detected val_dl) in
  avg_iou_per_region (vr_obj_detector_scores res) !! r
  = Some (tdiv
      (sum_Qc (map (λ e : box * box * bool,
                      compute_box_area (intersection_box e.1.1 e.1.2))
                 (filter (λ e : box * box * bool,
                            valid_intersection e.1.1 e.1.2 e.2 = true) entries)))
      (sum_Qc (map (λ e : box * box * bool, entry_union_area e.1.1 e.1.2)
                 entries))).
Proof.
  intros Hall Hres Hr entries.
  destruct (decide (val_dl = [])) as [->|Hne]; [done|].
  rewrite get_val_losses_and_other_metrics_nonempty in Hres by done.
  cbn zeta in Hres. injection Hres as <-.
  cbn [vr_obj_detector_scores reduce_obj_detector_scores avg_iou_per_region].
  destruct (all_class_detected_shape val_dl Hall) as (HP & HG & HD).
  rewrite (foldl_val_step_obj_detector_scores val_dl val_state_init 0 [] [] []);
    try done; try (split; [done|constructor]).
  rewrite !app_nil_l.
  unfold update_object_detector_metrics.
  destruct (compute_intersection_and_union_area_per_region _ _ _)
    as [inter union] eqn:Hc.
  cbn [sum_intersection_area_per_region sum_union_area_per_region
       obj_detector_scores_init].
  assert (Hi := intersection_sum_valid_only _ _ _ _ r HP HG HD Hr).
  assert (Hu := union_sum_lookup _ _ _ _ r HP HG HD Hr).
  rewrite Hc in Hi, Hu. cbn [fst snd] in Hi, Hu.
  rewrite !zip_with_Qcplus_zeros.
  - by rewrite lookup_zip_with, Hi, Hu.
  - replace union with (compute_intersection_and_union_area_per_region
      (all_top_region_boxes val_dl) (all_gt_boxes val_dl)
      (all_class_detected val_dl)).2 by (by rewrite Hc).
    apply sum_dim0_length_eq, Forall_length_zip_with; by eapply shape_rows.
  - replace inter with (compute_intersection_and_union_area_per_region
      (all_top_region_boxes val_dl) (all_gt_boxes val_dl)
      (all_class_detected val_dl)).1 by (by rewrite Hc).
    apply sum_dim0_length_eq. apply Forall_length_zip_with; [|by eapply shape_rows].
    apply (Forall_length_zip_with pair); by eapply shape_rows.
Qed.

(** X9. The IoU a pass reports for a region is a ratio of sums over all
    images of the pass, not a mean of ratios: the sum of the intersection
    areas of the valid entries of the region, divided by the sum of the
    union areas of all its entries. *)
Theorem iou_is_ratio_of_sums (val_dl : list val_batch) (r : nat) :
  val_dl ≠ [] →
  Forall detector_batch_ok val_dl →
  r < num_regions →
  let entries :=
    region_entries r (all_top_region_boxes val_dl) (all_gt_boxes val_dl)
      (all_class_detected val_dl) in
  ∃ res,
    get_val_losses_and_other_metrics val_dl = Some res
    ∧ avg_iou_per_region (vr_obj_detector_scores res) !! r
      = Some (tdiv
          (sum_Qc (map (λ e : box * box * bool,
                          compute_box_area (intersection_box e.1.1 e.1.2))
                     (filter (λ e : box * box * bool,
                                valid_intersection e.1.1 e.1.2 e.2 = true)
                        entries)))
          (sum_Qc (map (λ e : box * box * bool, entry_union_area e.1.1 e.1.2)
                     entries))).
Proof.
  intros Hne Hall Hr entries.
  destruct (get_val_losses_and_other_metrics val_dl) as [res|] eqn:Hres;
    [|by rewrite get_val_losses_and_other_metrics_nonempty in Hres].
  exists res. split; [done|]. by apply avg_iou_lookup.
Qed.

Lemma iou_is_ratio_of_sums_witness :
  let val_dl :=
    [batch_with_detections [flags_at [0; 1]]; batch_with_detections [flags_at [0]]] in
  let entries :=
    region_entries 1 (all_top_region_boxes val_dl) (all_gt_boxes val_dl)
      (all_class_detected val_dl) in
  ∃ res,
    get_val_losses_and_other_metrics val_dl = Some res
    ∧ avg_iou_per_region (vr_obj_detector_scores res) !! 1
      = Some (tdiv
          (sum_Qc (map (λ e : box * box * bool,
                          compute_box_area (intersection_box e.1.1 e.1.2))
                     (filter (λ e : box * box * bool,
                                valid_intersection e.1.1 e.1.2 e.2 = true)
                        entries)))
          (sum_Qc (map (λ e : box * box * bool, entry_union_area e.1.1 e.1.2)
                     entries))).
Proof.
  apply (iou_is_ratio_of_sums
    [batch_with_detections [flags_at [0; 1]]; batch_with_detections [flags_at [0]]] 1).
  - discriminate.
  - repeat constructor.
  - unfold num_regions. lia.
Defined.

Lemma sum_Qc_pos (l : list Qc) :
  l ≠ [] → Forall (λ x, (0 < x)%Qc) l → (0 < sum_Qc l)%Qc.
Proof.
  intros Hne Hall. destruct Hall as [|x l Hx Hall]; [done|]. clear Hne.
  unfold sum_Qc. cbn [foldr]. apply Qcplus_pos_nonneg; [done|].
  induction Hall as [|y l Hy Hall IH]; cbn [foldr]; [done|].
  apply Qcplus_nonneg_nonneg; [by apply Qclt_le_weak|done].
Qed.

Lemma compute_box_area_pos (b : box) : non_degenerate b → (0 < compute_box_area b)%Qc.
Proof.
  intros [Hx Hy]. unfold compute_box_area. apply Qcmult_pos_pos.
  - apply (Qcplus_lt_mono_r _ _ (bx0 b)).
    by replace (bx1 b - bx0 b + bx0 b)%Qc with (bx1 b) by ring;
      rewrite Qcplus_0_l.
  - apply (Qcplus_lt_mono_r _ _ (by0 b)).
    by replace (by1 b - by0 b + by0 b)%Qc with (by1 b) by ring;
      rewrite Qcplus_0_l.
Qed.

Lemma intersection_box_id (b : box) : intersection_box b b = b.
Proof. unfold intersection_box. rewrite !Qcmax_id, !Qcmin_id. by destruct b. Qed.

(** X10. If, in every image of a pass with at least one image, region [r]
    is detected and its predicted box is the ground-truth box, a box with
    positive width and height, the IoU reported for [r] is 1. *)
Theorem iou_of_exact_detections_is_one (val_dl : list val_batch) (r : nat) :
  val_dl ≠ [] →
  Forall detector_batch_ok val_dl →
  r < num_regions →
  total_images val_dl ≠ 0 →
  Forall (λ e : box * box * bool,
            e.1.1 = e.1.2 ∧ non_degenerate e.1.1 ∧ e.2 = true)
    (region_entries r (all_top_region_boxes val_dl) (all_gt_boxes val_dl)
       (all_class_detected val_dl)) →
  ∃ res,
    get_val_losses_and_other_metrics val_dl = Some res
    ∧ avg_iou_per_region (vr_obj_detector_scores res) !! r = Some (TNum 1%Qc).
Proof.
  intros Hne Hall Hr Himg Hexact.
  destruct (get_val_losses_and_other_metrics val_dl) as [res|] eqn:Hres;
    [|by rewrite get_val_losses_and_other_metrics_nonempty in Hres].
  exists res. split; [done|].
  rewrite (avg_iou_lookup val_dl res r Hall Hres Hr). cbn zeta.
  destruct (all_class_detected_shape val_dl Hall) as (HP & HG & HD).
  destruct (region_entries_length _ _ _ _ r HP HG HD Hr) as (_ & _ & _ & Hlen).
  set (entries := region_entries r _ _ _) in *.
  assert (Hfilter : filter (λ e : box * box * bool,
                       valid_intersection e.1.1 e.1.2 e.2 = true) entries
                    = entries).
  { clear Hlen. induction Hexact as [|[[p g] d] l (Heq & [Hx Hy] & Hd) _ IH];
      [done|].
    cbn [fst snd] in *. subst g d. rewrite filter_cons, decide_True, IH; [done|].
    cbn [fst snd]. unfold valid_intersection. rewrite intersection_box_id.
    by rewrite (proj2 (Qcltb_true _ _) Hx), (proj2 (Qcltb_true _ _) Hy). }
  rewrite Hfilter.
  assert (Hsame : map (λ e : box * box * bool, entry_union_area e.1.1 e.1.2) entries
                  = map (λ e : box * box * bool,
                           compute_box_area (intersection_box e.1.1 e.1.2)) entries).
  { clear Hlen Hfilter. induction Hexact as [|[[p g] d] l (Heq & _ & _) _ IH];
      [done|].
    cbn [fst snd map] in *. subst g. rewrite IH. f_equal.
    unfold entry_union_area. rewrite intersection_box_id. ring. }
  rewrite Hsame.
  assert (Hpos : (0 < sum_Qc (map (λ e : box * box * bool,
                     compute_box_area (intersection_box e.1.1 e.1.2)) entries))%Qc).
  { apply sum_Qc_pos.
    - intros Hnil. apply (f_equal length) in Hnil.
      rewrite length_map, Hlen in Hnil. done.
    - apply Forall_fmap, (Forall_impl _ _ _ Hexact).
      intros [[p g] d] (Heq & Hnd & _). cbn [fst snd] in *. subst g.
      unfold compose. cbn [fst snd].
      rewrite intersection_box_id. by apply compute_box_area_pos. }
  unfold tdiv. rewrite decide_False by (intros H0; rewrite H0 in Hpos; done).
  do 2 f_equal. apply Qcmult_inv_r. intros H0. rewrite H0 in Hpos. done.
Qed.

Lemma iou_of_exact_detections_is_one_witness :
  ∃ res,
    get_val_losses_and_other_metrics [batch_with_loss 2 1; batch_with_loss 1 1]
    = Some res
    ∧ avg_iou_per_region (vr_obj_detector_scores res) !! 3 = Some (TNum 1%Qc).
Proof.
  apply (iou_of_exact_detections_is_one [batch_with_loss 2 1; batch_with_loss 1 1] 3).
  - discriminate.
  - repeat constructor.
  - unfold num_regions. lia.
  - discriminate.
  - repeat constructor; reflexivity.
Defined.

(** X11. A region that is detected in no image of the pass has no valid
    entry: its intersection sum is 0, and its IoU is 0, or [nan] if its
    union sum is 0 as well. Missing a region lowers the score instead of
    leaving the region out. *)
Theorem iou_of_undetected_region (val_dl : list val_batch) (r : nat) :
  val_dl ≠ [] →
  Forall detector_batch_ok val_dl →
  r < num_regions →
  Forall (λ b, b = false) (column r (all_class_detected val_dl)) →
  ∃ res,
    get_val_losses_and_other_metrics val_dl = Some res
    ∧ avg_iou_per_region (vr_obj_detector_scores res) !! r
      = Some (if decide
                   (sum_Qc (map (λ e : box * box * bool, entry_union_area e.1.1 e.1.2)
                      (region_entries r (all_top_region_boxes val_dl)
                         (all_gt_boxes val_dl) (all_class_detected val_dl)))
                    = 0%Qc)
              then TNaN else TNum 0%Qc).
Proof.
  intros Hne Hall Hr Hund.
  destruct (get_val_losses_and_other_metrics val_dl) as [res|] eqn:Hres;
    [|by rewrite get_val_losses_and_other_metrics_nonempty in Hres].
  exists res. split; [done|].
  rewrite (avg_iou_lookup val_dl res r Hall Hres Hr). cbn zeta.
  set (entries := region_entries r _ _ _) in *.
  assert (Hfilter : filter (λ e : box * box * bool,
                       valid_intersection e.1.1 e.1.2 e.2 = true) entries = []).
  { unfold entries, region_entries. revert Hund.
    generalize (zip (column r (all_top_region_boxes val_dl))
                    (column r (all_gt_boxes val_dl))) as l.
    generalize (column r (all_class_detected val_dl)) as d.
    intros d l Hd. revert l.
    induction Hd as [|b d -> _ IH]; intros [|e l]; try done.
    cbn [zip zip_with]. rewrite filter_cons, decide_False; [apply IH|].
    cbn [fst snd]. unfold valid_intersection. rewrite andb_false_r. done. }
  rewrite Hfilter. cbn [map sum_Qc foldr]. unfold tdiv.
  destruct (decide (_ = 0%Qc)); [by rewrite decide_True|].
  do 2 f_equal. unfold Qcdiv. ring.
Qed.

Lemma iou_of_undetected_region_witness :
  let val_dl :=
    [batch_with_detections [flags_at [0; 1]]; batch_with_detections [flags_at [0]]] in
  ∃ res,
    get_val_losses_and_other_metrics val_dl = Some res
    ∧ avg_iou_per_region (vr_obj_detector_scores res) !! 2
      = Some (if decide
                   (sum_Qc (map (λ e : box * box * bool, entry_union_area e.1.1 e.1.2)
                      (region_entries 2 (all_top_region_boxes val_dl)
                         (all_gt_boxes val_dl) (all_class_detected val_dl)))
                    = 0%Qc)
              then TNaN else TNum 0%Qc).
Proof.
  apply (iou_of_undetected_region
    [batch_with_detections [flags_at [0; 1]]; batch_with_detections [flags_at [0]]] 2).
  - discriminate.
  - repeat constructor.
  - unfold num_regions. lia.
  - repeat constructor.
Defined.

Lemma sum_Qc_of_bool (l : list bool) :
  sum_Qc (map Qc_of_bool l) = Qc_of_nat (count_true l).
Proof.
  unfold sum_Qc, count_true. induction l as [|b l IH]; cbn [map foldr].
  - symmetry. apply Z2Qc_inj_0.
  - rewrite IH, filter_cons. destruct b.
    + rewrite decide_True by done. cbn [length Qc_of_bool]. unfold Qc_of_nat.
      by rewrite Nat2Z.inj_succ, <- Z.add_1_l, Z2Qc_inj_add, Z2Qc_inj_1.
    + rewrite decide_False by done. cbn [Qc_of_bool]. by rewrite Qcplus_0_l.
Qed.

Lemma count_true_le (l : list bool) : count_true l ≤ length l.
Proof. apply length_filter. Qed.

Lemma Qc_of_nat_le (n m : nat) : n ≤ m → (Qc_of_nat n ≤ Qc_of_nat m)%Qc.
Proof. intros H. unfold Qc_of_nat. apply (proj1 (Z2Qc_inj_le _ _)). lia. Qed.

Lemma Qc_of_nat_nonneg (n : nat) : (0 ≤ Qc_of_nat n)%Qc.
Proof. rewrite <- Z2Qc_inj_0. apply (Qc_of_nat_le 0). lia. Qed.

Lemma Qcdiv_between_0_1 (a b : Qc) :
  (0 ≤ a)%Qc → (a ≤ b)%Qc → b ≠ 0%Qc → (0 ≤ a / b ≤ 1)%Qc.
Proof.
  intros Ha Hab Hb.
  assert (Hbpos : (0 < b)%Qc).
  { apply Qclt_nge. intros Hb0. apply Hb.
    apply Qcle_antisym; [done|by apply (Qcle_trans _ a)]. }
  assert (Hinv : (0 ≤ / b)%Qc) by (by apply Qclt_le_weak, Qcinv_pos).
  unfold Qcdiv. split.
  - rewrite <- (Qcmult_0_l (/ b)). by apply Qcmult_le_mono_nonneg_r.
  - rewrite <- (Qcmult_inv_r b Hb). by apply Qcmult_le_mono_nonneg_r.
Qed.

(** X12. In a pass that has seen at least one image, the average number of
    detections of every region lies between 0 and 1. *)
Theorem avg_detections_per_region_between_0_and_1 (val_dl : list val_batch)
    (r : nat) :
  Forall detector_batch_ok val_dl →
  total_images val_dl ≠ 0 →
  r < num_regions →
  ∃ res q,
    get_val_losses_and_other_metrics val_dl = Some res
    ∧ avg_detections_per_region (vr_obj_detector_scores res) !! r = Some (TNum q)
    ∧ (0 ≤ q ≤ 1)%Qc.
Proof.
  intros Hall Himg Hr.
  assert (Hne : val_dl ≠ []) by (by intros ->).
  rewrite get_val_losses_and_other_metrics_nonempty by done. cbn zeta.
  eexists _, _. split; [reflexivity|].
  cbn [vr_obj_detector_scores reduce_obj_detector_scores avg_detections_per_region].
  assert (Hdet : Forall (λ b, Forall (λ row, length row = num_regions)
                                (vb_class_detected b)) val_dl).
  { eapply Forall_impl; [exact Hall|]. intros b (_ & _ & Hd). by eapply shape_rows. }
  change (map ?f ?l) with (f <$> l).
  rewrite list_lookup_fmap.
  rewrite (foldl_val_step_detected val_dl val_state_init r 0%Qc Hdet Hr)
    by (by apply lookup_replicate_2).
  rewrite foldl_val_step_num_images.
  cbn [fmap option_map vs_num_images val_state_init]. rewrite Qcplus_0_l.
  change (0 + total_images val_dl) with (total_images val_dl).
  cbn [option_fmap option_map]. unfold tdiv. rewrite decide_False by (by apply Qc_of_nat_neq_0).
  split; [reflexivity|].
  rewrite sum_Qc_of_bool. apply Qcdiv_between_0_1.
  - apply Qc_of_nat_nonneg.
  - apply Qc_of_nat_le. etrans; [apply count_true_le|].
    destruct (all_class_detected_shape val_dl Hall) as (_ & _ & [Hlen Hrows]).
    rewrite column_length; [lia|].
    eapply Forall_impl; [exact Hrows|]. intros row Hrow. cbn in Hrow. lia.
  - by apply Qc_of_nat_neq_0.
Qed.

Lemma avg_detections_per_region_between_0_and_1_witness :
  ∃ res q,
    get_val_losses_and_other_metrics
      [batch_with_detections [flags_at [0; 1]; flags_at [0]]] = Some res
    ∧ avg_detections_per_region (vr_obj_detector_scores res) !! 1 = Some (TNum q)
    ∧ (0 ≤ q ≤ 1)%Qc.
Proof.
  apply (avg_detections_per_region_between_0_and_1
           [batch_with_detections [flags_at [0; 1]; flags_at [0]]] 1).
  - repeat constructor.
  - discriminate.
  - unfold num_regions. lia.
Defined.

(** ** The binary decisions *)

Lemma masked_select_partition_count {A} (P : A → Prop) `{∀ x, Decision (P x)}
    (mask : list bool) (xs : list A) :
  length mask = length xs →
  length (filter P (masked_select (map negb mask) xs))
  + length (filter P (masked_select mask xs))
  = length (filter P xs).
Proof.
  revert xs. induction mask as [|m mask IH]; intros [|x xs] Hl; try done.
  injection Hl as Hl. cbn [map masked_select]. specialize (IH xs Hl).
  destruct m; cbn [negb]; rewrite !filter_cons;
    destruct (decide (P x)); cbn [length]; lia.
Qed.

Lemma concat_tensor_not (t : list (list bool)) :
  concat (tensor_not t) = map negb (concat t).
Proof.
  unfold tensor_not. induction t as [|row t IH]; [done|].
  cbn [map concat]. by rewrite IH, map_app.
Qed.

(** X13. The normal and the abnormal subset split the region-level
    decisions of a batch: for each combination of prediction and ground
    truth, the count in the update of [all] is the sum of the counts in the
    updates of [normal] and of [abnormal]. *)
Theorem region_selection_subsets_partition (n : nat) (s : region_selection_scores)
    (selected_regions region_has_sentence region_is_abnormal : list (list bool)) :
  shape n selected_regions → shape n region_has_sentence →
  shape n region_is_abnormal →
  let s' := update_region_selection_metrics s selected_regions
              region_has_sentence region_is_abnormal in
  ∃ call_all call_normal call_abnormal,
    precision (rs_all s') = precision (rs_all s) ++ [call_all]
    ∧ precision (rs_normal s') = precision (rs_normal s) ++ [call_normal]
    ∧ precision (rs_abnormal s') = precision (rs_abnormal s) ++ [call_abnormal]
    ∧ recall (rs_all s') = recall (rs_all s) ++ [call_all]
    ∧ recall (rs_normal s') = recall (rs_normal s) ++ [call_normal]
    ∧ recall (rs_abnormal s') = recall (rs_abnormal s) ++ [call_abnormal]
    ∧ ∀ p a, confusion_count p a call_all
             = confusion_count p a call_normal + confusion_count p a call_abnormal.
Proof.
  intros Hs Hh Ha s'. subst s'. unfold update_region_selection_metrics.
  eexists (_, _), (_, _), (_, _).
  do 6 (split; [reflexivity|]).
  intros p a. unfold confusion_count, tensor_index; cbn [fst snd].
  rewrite concat_tensor_not, !masked_select_zip.
  symmetry. apply masked_select_partition_count.
  rewrite length_zip_with, !(shape_concat_length n) by done. lia.
Qed.

Lemma region_selection_subsets_partition_witness :
  let s' := update_region_selection_metrics region_selection_scores_init
              [flags_at [0; 1; 2]] [flags_at [1; 2; 3]] [flags_at [0; 3]] in
  ∃ call_all call_normal call_abnormal,
    precision (rs_all s') = precision (rs_all region_selection_scores_init) ++ [call_all]
    ∧ precision (rs_normal s')
      = precision (rs_normal region_selection_scores_init) ++ [call_normal]
    ∧ precision (rs_abnormal s')
      = precision (rs_abnormal region_selection_scores_init) ++ [call_abnormal]
    ∧ recall (rs_all s') = recall (rs_all region_selection_scores_init) ++ [call_all]
    ∧ recall (rs_normal s')
      = recall (rs_normal region_selection_scores_init) ++ [call_normal]
    ∧ recall (rs_abnormal s')
      = recall (rs_abnormal region_selection_scores_init) ++ [call_abnormal]
    ∧ ∀ p a, confusion_count p a call_all
             = confusion_count p a call_normal + confusion_count p a call_abnormal.
Proof.
  apply (region_selection_subsets_partition 1 region_selection_scores_init
           [flags_at [0; 1; 2]] [flags_at [1; 2; 3]] [flags_at [0; 3]]);
    solve_shape.
Defined.

(** ** The sentences and their metrics *)

Lemma masked_select_length {A} (mask : list bool) (xs : list A) :
  length mask = length xs → length (masked_select mask xs) = count_true mask.
Proof.
  unfold count_true. revert xs.
  induction mask as [|m mask IH]; intros [|x xs] Hl; try done.
  injection Hl as Hl. cbn [masked_select]. rewrite filter_cons.
  destruct m; [rewrite decide_True by done|rewrite decide_False by done];
    cbn [length]; by rewrite (IH xs).
Qed.

Lemma masked_select_partition {A} (mask : list bool) (xs : list A) :
  length mask = length xs →
  masked_select (map negb mask) xs ++ masked_select mask xs ≡ₚ xs.
Proof.
  revert xs. induction mask as [|m mask IH]; intros [|x xs] Hl; try done.
  injection Hl as Hl. cbn [map masked_select]. specialize (IH xs Hl).
  destruct m; cbn [negb app].
  - by rewrite <- Permutation_middle, IH.
  - by rewrite IH.
Qed.

Lemma tensor_index_length {A} (n : nat) (t : list (list A))
    (mask : list (list bool)) :
  shape n t → shape n mask →
  length (tensor_index t mask) = count_true (concat mask).
Proof.
  intros Ht Hm. unfold tensor_index. apply masked_select_length.
  by rewrite !(shape_concat_length n).
Qed.

(** X14. With one generated and one reference sentence per selected
    region, the sentences of the normal and of the abnormal selected regions
    split the sentences of the batch: together they are a rearrangement of
    all of them, and each generated sentence stays paired with its own
    reference sentence. In particular both subsets hand the metrics as many
    predictions as references. *)
Theorem sentences_split_by_abnormality (n : nat) (gen ref : list string)
    (selected_regions region_is_abnormal : list (list bool)) :
  shape n selected_regions → shape n region_is_abnormal →
  length gen = count_true (concat selected_regions) →
  length ref = count_true (concat selected_regions) →
  let mask := tensor_index region_is_abnormal selected_regions in
  ∃ gen_normal gen_abnormal ref_normal ref_abnormal,
    get_sents_for_normal_abnormal_selected_regions gen ref
      selected_regions region_is_abnormal
    = (gen_normal, gen_abnormal, ref_normal, ref_abnormal)
    ∧ gen_normal ++ gen_abnormal ≡ₚ gen
    ∧ ref_normal ++ ref_abnormal ≡ₚ ref
    ∧ zip gen_normal ref_normal = masked_select (map negb mask) (zip gen ref)
    ∧ zip gen_abnormal ref_abnormal = masked_select mask (zip gen ref)
    ∧ length gen_normal = length ref_normal
    ∧ length gen_abnormal = length ref_abnormal.
Proof.
  intros Hs Ha Hg Hr mask.
  assert (Hm : length mask = count_true (concat selected_regions))
    by (by apply (tensor_index_length n)).
  unfold get_sents_for_normal_abnormal_selected_regions. fold mask.
  eexists _, _, _, _. split; [reflexivity|].
  split; [apply masked_select_partition; lia|].
  split; [apply masked_select_partition; lia|].
  split; [apply masked_select_zip|].
  split; [apply masked_select_zip|].
  split; apply masked_select_length_eq; lia.
Qed.

Lemma sentences_split_by_abnormality_witness :
  let gen := ["a"; "b"] in
  let ref := ["#"; "opacity noted"] in
  let mask := tensor_index [flags_at [1]] [flags_at [0; 1]] in
  ∃ gen_normal gen_abnormal ref_normal ref_abnormal,
    get_sents_for_normal_abnormal_selected_regions gen ref
      [flags_at [0; 1]] [flags_at [1]]
    = (gen_normal, gen_abnormal, ref_normal, ref_abnormal)
    ∧ gen_normal ++ gen_abnormal ≡ₚ gen
    ∧ ref_normal ++ ref_abnormal ≡ₚ ref
    ∧ zip gen_normal ref_normal = masked_select (map negb mask) (zip gen ref)
    ∧ zip gen_abnormal ref_abnormal = masked_select mask (zip gen ref)
    ∧ length gen_normal = length ref_normal
    ∧ length gen_abnormal = length ref_abnormal.
Proof.
  apply (sentences_split_by_abnormality 1 ["a"; "b"] ["#"; "opacity noted"]
           [flags_at [0; 1]] [flags_at [1]]);
    [solve_shape | solve_shape | reflexivity | reflexivity].
Defined.

Lemma masked_select_all_false {A} (mask : list bool) (xs : list A) :
  Forall (λ b, b = false) mask → masked_select mask xs = [].
Proof.
  intros Hall. revert xs. induction Hall as [|m mask -> _ IH]; intros [|x xs];
    try done. cbn [masked_select]. apply IH.
Qed.

(** X15. The sentence metrics skip a subset without sentences: if none of
    the selected regions of the batch is abnormal, the metric objects of
    [abnormal] are left as they are; if all of them are abnormal, those of
    [normal] are. The objects of [all] receive the batch in either case. *)
Theorem sentence_metrics_skip_empty_subsets (s : language_model_scores)
    (gen ref : list string)
    (selected_regions region_is_abnormal : list (list bool)) :
  let s' := update_language_model_scores s gen ref selected_regions
              region_is_abnormal in
  (Forall (λ b, b = false) (tensor_index region_is_abnormal selected_regions) →
   lm_abnormal s' = lm_abnormal s)
  ∧ (Forall (λ b, b = true) (tensor_index region_is_abnormal selected_regions) →
     lm_normal s' = lm_normal s)
  ∧ lm_all s' = add_batch_all gen ref (lm_all s).
Proof.
  intros s'. subst s'.
  unfold update_language_model_scores,
    get_sents_for_normal_abnormal_selected_regions.
  cbn [lm_all lm_normal lm_abnormal]. repeat split.
  - intros Hall. rewrite (masked_select_all_false _ ref Hall).
    by rewrite decide_False by (cbn; lia).
  - intros Hall. rewrite (masked_select_all_false _ ref).
    + by rewrite decide_False by (cbn; lia).
    + apply Forall_fmap. eapply Forall_impl; [exact Hall|]. by intros b ->.
Qed.

(** X16. [get_ref_sentences_for_selected_regions] returns one reference
    sentence per selected region of the batch, each of them a reference
    sentence of the batch. *)
Theorem one_reference_sentence_per_selected_region (n : nat)
    (reference_sentences : list (list string)) (selected_regions : list (list bool)) :
  shape n reference_sentences → shape n selected_regions →
  length (get_ref_sentences_for_selected_regions reference_sentences selected_regions)
  = count_true (concat selected_regions)
  ∧ get_ref_sentences_for_selected_regions reference_sentences selected_regions
    ⊆ concat reference_sentences.
Proof.
  intros Hr Hs. split.
  - by apply (tensor_index_length n).
  - apply masked_select_subseteq.
Qed.

Lemma one_reference_sentence_per_selected_region_witness :
  length (get_ref_sentences_for_selected_regions
            [reference_row ["#"; "opacity noted"]] [flags_at [0; 1]])
  = count_true (concat [flags_at [0; 1]])
  ∧ get_ref_sentences_for_selected_regions
      [reference_row ["#"; "opacity noted"]] [flags_at [0; 1]]
    ⊆ concat [reference_row ["#"; "opacity noted"]].
Proof.
  apply (one_reference_sentence_per_selected_region 1
           [reference_row ["#"; "opacity noted"]] [flags_at [0; 1]]);
    solve_shape.
Defined.

Lemma evaluate_language_model_loop_take (cfg : run_configurations) (n k : nat)
    (val_dl : list lm_batch) (scores : language_model_scores)
    (to_save : sentences_to_save) :
  evaluate_language_model_loop cfg n k val_dl scores to_save
  = evaluate_language_model_loop cfg n k (take (n - k) val_dl) scores to_save.
Proof.
  revert k scores to_save.
  induction val_dl as [|b val_dl IH]; intros k scores to_save.
  - by rewrite take_nil.
  - cbn [evaluate_language_model_loop]. destruct (decide (n ≤ k)) as [Hk|Hk].
    + replace (n - k) with 0 by lia. done.
    + replace (n - k) with (S (n - S k)) by lia.
      cbn [take evaluate_language_model_loop].
      destruct (decide (n ≤ k)); [lia|]. apply IH.
Qed.

Lemma add_batch_all_lengths (gen ref : list string) (d : subset_scores) (m : nat) :
  Forall (λ kv : string * text_metric, length kv.2 = m) d →
  Forall (λ kv : string * text_metric, length kv.2 = S m) (add_batch_all gen ref d).
Proof.
  intros Hd. unfold add_batch_all. apply Forall_fmap.
  eapply Forall_impl; [exact Hd|]. intros [k v] Hv. cbn in *.
  unfold add_batch. rewrite length_app. cbn. lia.
Qed.

Lemma evaluate_language_model_loop_calls (cfg : run_configurations) (n k : nat)
    (val_dl : list lm_batch) (scores : language_model_scores)
    (to_save : sentences_to_save) (m : nat) :
  Forall (λ kv : string * text_metric, length kv.2 = m) (lm_all scores) →
  Forall (λ kv : string * text_metric,
            length kv.2 = m + (n - k) `min` length val_dl)
    (lm_all (evaluate_language_model_loop cfg n k val_dl scores to_save).1).
Proof.
  revert k scores to_save m.
  induction val_dl as [|b val_dl IH]; intros k scores to_save m Hm.
  - cbn. by rewrite Nat.min_0_r, Nat.add_0_r.
  - cbn [evaluate_language_model_loop]. destruct (decide (n ≤ k)) as [Hk|Hk].
    + replace (n - k) with 0 by lia. cbn. by rewrite Nat.add_0_r.
    + replace (m + (n - k) `min` length (b :: val_dl))
        with (S m + (n - S k) `min` length val_dl) by (cbn [length]; lia).
      apply IH. unfold update_language_model_scores.
      destruct (get_sents_for_normal_abnormal_selected_regions _ _ _ _)
        as [[[? ?] ?] ?].
      cbn [lm_all]. by apply add_batch_all_lengths.
Qed.

(** X17. The generation loop stops at its budget: with [n] the number of
    sentences to generate divided by the batch size, the evaluation of the
    language model on a loader is the one on its first [n] batches, and
    every metric object of subset [all] has received one batch of sentences
    per processed batch, [min n (len loader)] in all. *)
Theorem generation_stops_at_budget (cfg : run_configurations)
    (val_dl : list lm_batch) :
  BATCH_SIZE cfg ≠ 0 →
  let n := NUM_SENTENCES_TO_GENERATE_FOR_EVALUATION cfg / BATCH_SIZE cfg in
  evaluate_language_model cfg val_dl = evaluate_language_model cfg (take n val_dl)
  ∧ ∃ scores file,
      evaluate_language_model cfg val_dl = Some (scores, file)
      ∧ Forall (λ kv : string * text_metric,
                  length kv.2 = n `min` length val_dl) (lm_all scores).
Proof.
  intros Hb n.
  assert (Hloop : evaluate_language_model_loop cfg n 0 val_dl
                    language_model_scores_init (SentencesToSave [] [])
                  = evaluate_language_model_loop cfg n 0 (take n val_dl)
                      language_model_scores_init (SentencesToSave [] [])).
  { rewrite (evaluate_language_model_loop_take cfg n 0 val_dl).
    by rewrite Nat.sub_0_r. }
  unfold evaluate_language_model.
  rewrite !option_guard_True by done. cbn [mbind option_bind]. fold n.
  rewrite <- Hloop. split; [done|].
  assert (Hcalls := evaluate_language_model_loop_calls cfg n 0 val_dl
                language_model_scores_init (SentencesToSave [] []) 0).
  rewrite Nat.sub_0_r in Hcalls. cbn [Nat.add] in Hcalls.
  destruct (evaluate_language_model_loop cfg n 0 val_dl _ _)
    as [scores to_save].
  eexists _, _. split; [reflexivity|].
  apply Hcalls. repeat constructor.
Qed.

Lemma generation_stops_at_budget_witness :
  let n := NUM_SENTENCES_TO_GENERATE_FOR_EVALUATION scenario_cfg
           / BATCH_SIZE scenario_cfg in
  evaluate_language_model scenario_cfg [scenario_batch; scenario_batch]
  = evaluate_language_model scenario_cfg (take n [scenario_batch; scenario_batch])
  ∧ ∃ scores file,
      evaluate_language_model scenario_cfg [scenario_batch; scenario_batch]
      = Some (scores, file)
      ∧ Forall (λ kv : string * text_metric,
                  length kv.2 = n `min` length [scenario_batch; scenario_batch])
               (lm_all scores).
Proof.
  apply (generation_stops_at_budget scenario_cfg [scenario_batch; scenario_batch]).
  discriminate.
Defined.

Lemma evaluate_language_model_loop_saved (cfg : run_configurations) (n k : nat)
    (val_dl : list lm_batch) (scores : language_model_scores)
    (to_save : sentences_to_save) :
  let kept :=
    take ((n `min` NUM_BATCHES_OF_GENERATED_SENTENCES_TO_SAVE_TO_FILE cfg) - k)
         val_dl in
  (evaluate_language_model_loop cfg n k val_dl scores to_save).2
  = SentencesToSave
      (generated_sentences to_save
       ++ concat (map lb_generated_sentences_for_selected_regions kept))
      (reference_sentences to_save
       ++ concat (map (λ b, get_ref_sentences_for_selected_regions
                              (lb_reference_sentences b) (lb_selected_regions b))
                      kept)).
Proof.
  revert k scores to_save.
  induction val_dl as [|b val_dl IH]; intros k scores to_save; cbn zeta.
  - rewrite take_nil. cbn. rewrite !app_nil_r. by destruct to_save.
  - cbn [evaluate_language_model_loop]. destruct (decide (n ≤ k)) as [Hk|Hk].
    + replace (_ - k) with 0 by lia. cbn. rewrite !app_nil_r. by destruct to_save.
    + rewrite IH. cbn zeta.
      destruct (decide (k < NUM_BATCHES_OF_GENERATED_SENTENCES_TO_SAVE_TO_FILE cfg))
        as [Hs|Hs].
      * replace (n `min` NUM_BATCHES_OF_GENERATED_SENTENCES_TO_SAVE_TO_FILE cfg - k)
          with (S (n `min` NUM_BATCHES_OF_GENERATED_SENTENCES_TO_SAVE_TO_FILE cfg
                   - S k)) by lia.
        cbn [take map concat generated_sentences reference_sentences].
        by rewrite !app_assoc.
      * replace (n `min` NUM_BATCHES_OF_GENERATED_SENTENCES_TO_SAVE_TO_FILE cfg - k)
          with 0 by lia.
        replace (n `min` NUM_BATCHES_OF_GENERATED_SENTENCES_TO_SAVE_TO_FILE cfg - S k)
          with 0 by lia.
        by rewrite !take_0.
Qed.

(** X18. The file of sentences holds the pairs of the first batches only:
    those of the first [min n NUM_BATCHES_OF_GENERATED_SENTENCES_TO_SAVE_TO_FILE]
    batches of the loader, in order, nothing of the later ones. *)
Theorem saved_sentences_come_from_first_batches (cfg : run_configurations)
    (val_dl : list lm_batch) :
  BATCH_SIZE cfg ≠ 0 →
  let n := NUM_SENTENCES_TO_GENERATE_FOR_EVALUATION cfg / BATCH_SIZE cfg in
  let kept :=
    take (n `min` NUM_BATCHES_OF_GENERATED_SENTENCES_TO_SAVE_TO_FILE cfg) val_dl in
  snd <$> evaluate_language_model cfg val_dl
  = Some (write_sentences_to_file
            (SentencesToSave
               (concat (map lb_generated_sentences_for_selected_regions kept))
               (concat (map (λ b, get_ref_sentences_for_selected_regions
                                    (lb_reference_sentences b)
                                    (lb_selected_regions b)) kept)))).
Proof.
  intros Hb n kept. unfold evaluate_language_model.
  rewrite option_guard_True by done. cbn [mbind option_bind]. fold n.
  assert (Hsaved := evaluate_language_model_loop_saved cfg n 0 val_dl
                      language_model_scores_init (SentencesToSave [] [])).
  cbn zeta in Hsaved. rewrite Nat.sub_0_r in Hsaved.
  destruct (evaluate_language_model_loop cfg n 0 val_dl _ _) as [scores to_save].
  cbn [snd] in Hsaved. subst to_save. reflexivity.
Qed.

Lemma saved_sentences_come_from_first_batches_witness :
  let cfg := scenario_cfg in
  let val_dl := [scenario_batch; scenario_batch] in
  let n := NUM_SENTENCES_TO_GENERATE_FOR_EVALUATION cfg / BATCH_SIZE cfg in
  let kept :=
    take (n `min` NUM_BATCHES_OF_GENERATED_SENTENCES_TO_SAVE_TO_FILE cfg) val_dl in
  snd <$> evaluate_language_model cfg val_dl
  = Some (write_sentences_to_file
            (SentencesToSave
               (concat (map lb_generated_sentences_for_selected_regions kept))
               (concat (map (λ b, get_ref_sentences_for_selected_regions
                                    (lb_reference_sentences b)
                                    (lb_selected_regions b)) kept)))).
Proof.
  apply (saved_sentences_come_from_first_batches scenario_cfg
           [scenario_batch; scenario_batch]).
  discriminate.
Defined.

(** ** Sentences under a plotted image *)

Lemma mapM_lookup_seq {A} (l : list A) (i : nat) :
  i ≤ length l → mapM (λ num, l !! num) (seq 0 i) = Some (take i l).
Proof.
  intros Hi. apply mapM_Some_2, Forall2_same_length_lookup_2.
  - rewrite length_seq, length_take. lia.
  - intros k num x Hk Hx. apply lookup_seq in Hk as [-> Hk].
    by rewrite lookup_take_lt in Hx.
Qed.

Lemma count_true_app (a b : list bool) :
  count_true (a ++ b) = count_true a + count_true b.
Proof. unfold count_true. by rewrite filter_app, length_app. Qed.

Lemma count_true_concat (rows : list (list bool)) :
  count_true (concat rows) = sum_list (map count_true rows).
Proof.
  induction rows as [|row rows IH]; [done|].
  cbn [concat map sum_list sum_list_with]. unfold id.
  by rewrite count_true_app, IH.
Qed.

Lemma masked_select_app {A} (m1 m2 : list bool) (x1 x2 : list A) :
  length m1 = length x1 →
  masked_select (m1 ++ m2) (x1 ++ x2)
  = masked_select m1 x1 ++ masked_select m2 x2.
Proof.
  revert x1. induction m1 as [|m m1 IH]; intros [|x x1] Hl; try done.
  injection Hl as Hl. cbn [app masked_select]. rewrite (IH x1 Hl).
  by destruct m.
Qed.

Lemma concat_split_at {A} (t : list (list A)) (i r : nat) (row : list A) (x : A) :
  t !! i = Some row → row !! r = Some x →
  concat t
  = (concat (take i t) ++ take r row) ++ x :: (drop (S r) row ++ concat (drop (S i) t)).
Proof.
  intros Hrow Hx.
  rewrite <- (take_drop_middle t i row Hrow) at 1.
  rewrite concat_app. cbn [concat].
  rewrite <- (take_drop_middle row r x Hx) at 1.
  by rewrite <- !app_assoc.
Qed.

(** The index arithmetic of the lookup, on sentences listed in row-major
    order of the selected regions. *)
Lemma generated_sentence_lookup (n : nat)
    (sentences : list (list string)) (selected_regions : list (list bool))
    (i r : nat) (row : list bool) (srow : list string) (x : string) :
  shape n sentences → shape n selected_regions →
  selected_regions !! i = Some row → row !! r = Some true →
  sentences !! i = Some srow → srow !! r = Some x →
  get_generated_sentence_for_region (tensor_index sentences selected_regions)
    selected_regions i r
  = Some x.
Proof.
  intros Hs Hsel Hrow Hr Hsrow Hx.
  unfold get_generated_sentence_for_region.
  rewrite mapM_lookup_seq by (apply lookup_lt_Some in Hrow; lia).
  cbn [mbind option_bind]. rewrite Hrow. cbn [mbind option_bind].
  unfold tensor_index.
  rewrite (concat_split_at selected_regions i r row true Hrow Hr).
  rewrite (concat_split_at sentences i r srow x Hsrow Hx).
  assert (Hlen : length (concat (take i selected_regions) ++ take r row)
                 = length (concat (take i sentences) ++ take r srow)).
  { rewrite !length_app, !length_take.
    rewrite (Forall_lookup_1 _ _ _ _ (shape_rows _ _ Hsel) Hrow),
      (Forall_lookup_1 _ _ _ _ (shape_rows _ _ Hs) Hsrow).
    f_equal.
    rewrite (shape_concat_length (i `min` n) (take i selected_regions)),
      (shape_concat_length (i `min` n) (take i sentences)); [done|..].
    - split; [rewrite length_take, (shape_length n) by done; lia|].
      apply Forall_take. by eapply shape_rows.
    - split; [rewrite length_take, (shape_length n) by done; lia|].
      apply Forall_take. by eapply shape_rows. }
  rewrite masked_select_app by done. cbn [masked_select].
  rewrite <- count_true_concat, <- count_true_app.
  rewrite <- (masked_select_length _ (concat (take i sentences) ++ take r srow))
    by done.
  by rewrite lookup_app_r, Nat.sub_diag by lia.
Qed.

(** X19. The lookup of a generated sentence inverts the selection: if the
    sentences handed over are those of the selected regions of the batch in
    row-major order, then for a selected region [r] of image [i] the lookup
    returns the sentence of exactly that region. *)
Theorem get_generated_sentence_for_region_of_selected (n : nat)
    (sentences : list (list string)) (selected_regions : list (list bool))
    (i r : nat) (row : list bool) (srow : list string) (x : string) :
  shape n sentences → shape n selected_regions →
  selected_regions !! i = Some row → row !! r = Some true →
  sentences !! i = Some srow → srow !! r = Some x →
  get_generated_sentence_for_region (tensor_index sentences selected_regions)
    selected_regions i r
  = Some x.
Proof. apply generated_sentence_lookup. Qed.

Lemma get_generated_sentence_for_region_of_selected_witness :
  get_generated_sentence_for_region
    (tensor_index [reference_row ["a"; "b"; "c"]; reference_row ["d"; "e"]]
       [flags_at [0; 2]; flags_at [1]])
    [flags_at [0; 2]; flags_at [1]] 1 1
  = Some "e".
Proof.
  apply (get_generated_sentence_for_region_of_selected 2
           [reference_row ["a"; "b"; "c"]; reference_row ["d"; "e"]]
           [flags_at [0; 2]; flags_at [1]] 1 1
           (flags_at [1]) (reference_row ["d"; "e"]) "e");
    try solve_shape; reflexivity.
Defined.

Lemma string_app_assoc (a b c : string) : (a +:+ b) +:+ c = a +:+ (b +:+ c).
Proof.
  induction a as [|x a IH]; [reflexivity|].
  change (String x ((a +:+ b) +:+ c) = String x (a +:+ (b +:+ c))).
  by rewrite IH.
Qed.

Lemma string_app_nil_r (a : string) : a +:+ "" = a.
Proof.
  induction a as [|x a IH]; [reflexivity|].
  change (String x (a +:+ "") = String x a). by rewrite IH.
Qed.

Lemma has_no_space_app (a b : string) :
  has_no_space (a +:+ b) = has_no_space a && has_no_space b.
Proof.
  induction a as [|x a IH]; [reflexivity|].
  change (negb (is_space x) && has_no_space (a +:+ b)
          = negb (is_space x) && has_no_space a && has_no_space b).
  rewrite IH. by rewrite andb_assoc.
Qed.

Lemma string_app_snoc_neq (a : string) (c : Ascii.ascii) : a +:+ String c "" ≠ "".
Proof. by destruct a. Qed.

(** The words [str.split] returns are words. *)
Lemma str_split_go_words (s cur : string) :
  has_no_space cur = true → Forall is_word (str_split_go cur s).
Proof.
  revert cur. induction s as [|c s IH]; intros cur Hcur; cbn [str_split_go].
  - destruct cur; [constructor|]. by repeat constructor.
  - destruct (is_space c) eqn:Hc.
    + destruct cur; [by apply IH|]. constructor; [done|by apply IH].
    + apply IH. rewrite has_no_space_app, Hcur.
      change (has_no_space (String c "")) with (negb (is_space c) && true).
      by rewrite Hc.
Qed.

(** Reading a word: [str.split] goes through it without cutting. *)
Lemma str_split_go_word (w cur rest : string) :
  has_no_space w = true →
  str_split_go cur (w +:+ rest) = str_split_go (cur +:+ w) rest.
Proof.
  revert cur. induction w as [|c w IH]; intros cur Hw.
  - change ("" +:+ rest) with rest. by rewrite string_app_nil_r.
  - change (has_no_space (String c w))
      with (negb (is_space c) && has_no_space w) in Hw.
    apply andb_prop in Hw as [Hc Hw]. apply negb_true_iff in Hc.
    change (String c w +:+ rest) with (String c (w +:+ rest)).
    cbn [str_split_go]. rewrite Hc, IH by done.
    rewrite string_app_assoc. reflexivity.
Qed.

Lemma str_split_go_word_space (w rest : string) :
  is_word w →
  str_split_go "" (w +:+ " " +:+ rest) = w :: str_split_go "" rest.
Proof.
  intros [Hne Hw]. rewrite str_split_go_word by done.
  destruct w as [|c w]; [done|]. reflexivity.
Qed.

Lemma str_split_go_prefix (rest : string) :
  str_split_go "" (prefix_for_alignment +:+ rest) = str_split_go "" rest.
Proof. reflexivity. Qed.

Lemma transform_words_cons (w : string) (words : list string) (acc : string)
    (len : Z) :
  transform_words (w :: words) acc len
  = transform_words words (acc +:+ (transform_word w len).1 +:+ " ")
      (transform_word w len).2.
Proof.
  cbn [transform_words]. unfold transform_word.
  by destruct (50 <? Z.of_nat (String.length w) + len)%Z.
Qed.

Lemma transform_words_acc (words : list string) (acc : string) (len : Z) :
  transform_words words acc len = acc +:+ transform_words words "" len.
Proof.
  revert acc len. induction words as [|w words IH]; intros acc len.
  - cbn [transform_words]. by rewrite string_app_nil_r.
  - rewrite !transform_words_cons, IH, (IH ("" +:+ _)).
    change ("" +:+ ?x) with x. by rewrite string_app_assoc.
Qed.

Lemma str_split_transform_words (words : list string) (len : Z) :
  Forall is_word words →
  str_split_go "" (transform_words words "" len) = words.
Proof.
  intros Hall. revert len. induction Hall as [|w words Hw Hall IH]; intros len;
    [done|].
  rewrite transform_words_cons, transform_words_acc.
  change ("" +:+ ?x) with x. rewrite string_app_assoc.
  unfold transform_word.
  destruct (50 <? Z.of_nat (String.length w) + len)%Z; cbn [fst snd].
  - rewrite string_app_assoc, str_split_go_prefix.
    by rewrite str_split_go_word_space, IH.
  - by rewrite str_split_go_word_space, IH.
Qed.

(** X20. Wrapping a sentence to fit under an image changes its white space
    only: the words of the wrapped sentence are the words of the sentence,
    in the same order. A sentence of fewer than 50 characters is returned as
    it is. *)
Theorem transform_sentence_keeps_words (ref_sent_region : string) :
  str_split (transform_sentence_to_fit_under_image ref_sent_region)
  = str_split ref_sent_region
  ∧ (String.length ref_sent_region < 50 →
     transform_sentence_to_fit_under_image ref_sent_region = ref_sent_region).
Proof.
  unfold transform_sentence_to_fit_under_image.
  destruct (decide (String.length ref_sent_region < 50)) as [Hs|Hs].
  - done.
  - split; [|done]. unfold str_split at 1.
    apply str_split_transform_words. by apply str_split_go_words.
Qed.

(** ** The run parameters *)

Lemma dict_get_Some_elem (key : string) (d : list (string * Qc)) (v : Qc) :
  dict_get key d = Some v → key ∈ d.*1.
Proof.
  induction d as [|kv d IH]; cbn [dict_get fmap list_fmap]; [done|].
  destruct (decide (kv.1 = key)) as [<-|Hne]; [by left|].
  intros H. right. by apply IH.
Qed.

Lemma tltb_irrefl (x : tfloat) : tltb x x = false.
Proof. destruct x; cbn; [apply Qcltb_irrefl|done..]. Qed.

Lemma tltb_asym (x y : tfloat) : tltb x y = true → tltb y x = false.
Proof.
  destruct x as [p| | |], y as [q| | |]; cbn; try done.
  intros Hpq%Qcltb_true. apply Qcltb_false. by apply Qclt_le_weak.
Qed.

(** What a run of [evaluate_model] that returns has done. *)
Lemma evaluate_model_inv {model_state : Type} (state_dict : model_state)
    (train_losses_dict : list (string * Qc)) (cfg : run_configurations)
    (val_dl : list val_batch) (lm_val_dl : list lm_batch)
    (rp rp' : run_params model_state) (train' : list (string * Qc)) :
  evaluate_model state_dict train_losses_dict cfg val_dl lm_val_dl rp
  = Some (train', rp') →
  let total_val_loss :=
    TNum (weighted_loss_sum 0 val_dl / Qc_of_nat (length val_dl))%Qc in
  (train_losses_dict = [] ∨ steps_taken rp ≠ 0)
  ∧ val_dl ≠ []
  ∧ BATCH_SIZE cfg ≠ 0
  ∧ train_losses_dict.*1 ⊆ val_losses_dict_init.*1
  ∧ "total_loss" ∈ train_losses_dict.*1
  ∧ train' = map (λ kv : string * Qc, (kv.1, (kv.2 / Qc_of_nat (steps_taken rp))%Qc))
               train_losses_dict
  ∧ rp' = (if tltb total_val_loss (lowest_val_loss rp)
           then RunParams (epoch rp) (steps_taken rp) (overall_steps_taken rp)
                  (weights_folder_path rp) total_val_loss (Some (epoch rp))
                  (Some (os_path_join (weights_folder_path rp)
                           (checkpoint_file_name total_val_loss (epoch rp))))
                  (Some state_dict)
           else rp).
Proof.
  intros H total_val_loss. unfold evaluate_model in H.
  destruct (decide (train_losses_dict = [] ∨ steps_taken rp ≠ 0)) as [Hs|Hs];
    [rewrite option_guard_True in H by done
    |by rewrite option_guard_False in H by done].
  cbn [mbind option_bind] in H.
  destruct (get_val_losses_and_other_metrics val_dl) as [res|] eqn:Hres; [|done].
  cbn [mbind option_bind] in H.
  assert (Hne : val_dl ≠ []) by (by intros ->).
  destruct (evaluate_language_model cfg lm_val_dl) as [lm|] eqn:Hlm; [|done].
  cbn [mbind option_bind] in H.
  assert (Hb : BATCH_SIZE cfg ≠ 0).
  { intros Hb0. unfold evaluate_language_model in Hlm.
    by rewrite option_guard_False in Hlm by (by intros ?). }
  destruct (reported_losses_keys_and_total val_dl res Hres) as [Hkeys Htotal].
  set (train := map _ train_losses_dict) in *.
  assert (Htrain_keys : train.*1 = train_losses_dict.*1).
  { unfold train. change (map ?f ?l) with (f <$> l).
    by rewrite <- list_fmap_compose. }
  destruct (mapM _ train) as [vals|] eqn:Hvals; [|done].
  cbn [mbind option_bind] in H.
  destruct (dict_get "total_loss" train) as [tl|] eqn:Htl; [|done].
  cbn [mbind option_bind] in H.
  rewrite (dict_get_head "total_loss" _ _
             (eq_trans (f_equal (.!! 0) Hkeys) eq_refl) Htotal) in H.
  cbn [mbind option_bind] in H. fold total_val_loss in H.
  repeat split; try done.
  - rewrite <- Htrain_keys, <- Hkeys. intros k Hk.
    apply list_elem_of_fmap in Hk as (kv & -> & Hkv).
    assert (Hall := mapM_is_Some_1 _ _ (mk_is_Some _ _ Hvals)).
    pose proof (proj1 (Forall_forall _ _) Hall kv Hkv) as [v Hv].
    by eapply dict_get_Some_elem.
  - rewrite <- Htrain_keys. by eapply dict_get_Some_elem.
  - destruct (tltb total_val_loss (lowest_val_loss rp)); by injection H as <- <-.
  - destruct (tltb total_val_loss (lowest_val_loss rp)); by injection H as <- <-.
Qed.

(** X21. [evaluate_model] raises whenever the validation loader is empty,
    the batch size is 0, a train loss is of a type the validation losses do
    not have, or the train losses have no total loss (a division by zero or
    a missing key); no run parameters are returned then. *)
Theorem evaluate_model_raises {model_state : Type} (state_dict : model_state)
    (train_losses_dict : list (string * Qc)) (cfg : run_configurations)
    (val_dl : list val_batch) (lm_val_dl : list lm_batch)
    (rp : run_params model_state) :
  val_dl = []
  ∨ BATCH_SIZE cfg = 0
  ∨ ¬ train_losses_dict.*1 ⊆ val_losses_dict_init.*1
  ∨ "total_loss" ∉ train_losses_dict.*1 →
  evaluate_model state_dict train_losses_dict cfg val_dl lm_val_dl rp = None.
Proof.
  intros H.
  destruct (evaluate_model state_dict train_losses_dict cfg val_dl lm_val_dl rp)
    as [[train' rp']|] eqn:He; [|done].
  destruct (evaluate_model_inv _ _ _ _ _ _ _ _ He)
    as (_ & Hne & Hb & Hkeys & Htl & _).
  by destruct H as [?|[?|[?|?]]].
Qed.

Lemma evaluate_model_raises_witness :
  evaluate_model 0 [("obj_detector_loss", 1%Qc)] scenario_cfg
    [batch_with_loss 2 1] []
    (RunParams (model_state := nat) 7 10 10 "weights" TPosInf None None None)
  = None.
Proof.
  apply evaluate_model_raises. do 3 right. cbn.
  intros H%list_elem_of_singleton. discriminate.
Defined.

(** X22. An evaluation never raises the lowest validation loss, and leaves
    it no higher than the loss of this pass: after it, neither the old
    lowest loss nor the total validation loss of the pass is strictly below
    the recorded lowest loss. *)
Theorem lowest_val_loss_never_increases {model_state : Type}
    (state_dict : model_state) (train_losses_dict : list (string * Qc))
    (cfg : run_configurations) (val_dl : list val_batch)
    (lm_val_dl : list lm_batch) (rp rp' : run_params model_state)
    (train' : list (string * Qc)) :
  evaluate_model state_dict train_losses_dict cfg val_dl lm_val_dl rp
  = Some (train', rp') →
  tltb (lowest_val_loss rp) (lowest_val_loss rp') = false
  ∧ tltb (TNum (weighted_loss_sum 0 val_dl / Qc_of_nat (length val_dl))%Qc)
         (lowest_val_loss rp') = false.
Proof.
  intros H.
  destruct (evaluate_model_inv _ _ _ _ _ _ _ _ H) as (_ & _ & _ & _ & _ & _ & ->).
  destruct (tltb _ (lowest_val_loss rp)) eqn:Hlt; cbn [lowest_val_loss].
  - split; [by apply tltb_asym|apply tltb_irrefl].
  - split; [apply tltb_irrefl|done].
Qed.

Lemma lowest_val_loss_never_increases_witness :
  let rp := RunParams (model_state := nat) 7 10 10 "weights" TPosInf None None None in
  let val_dl := [batch_with_loss 2 1; batch_with_loss 1 1] in
  ∃ train' rp',
    evaluate_model 0 [("total_loss", 1%Qc)] scenario_cfg val_dl [] rp
    = Some (train', rp')
    ∧ tltb (lowest_val_loss rp) (lowest_val_loss rp') = false
    ∧ tltb (TNum (weighted_loss_sum 0 val_dl / Qc_of_nat (length val_dl))%Qc)
           (lowest_val_loss rp') = false.
Proof.
  cbn zeta.
  destruct (evaluate_model 0 [("total_loss", 1%Qc)] scenario_cfg
              [batch_with_loss 2 1; batch_with_loss 1 1] []
              (RunParams (model_state := nat) 7 10 10 "weights" TPosInf
                 None None None))
    as [[train' rp']|] eqn:Heq.
  - exists train', rp'. split; [reflexivity|].
    exact (lowest_val_loss_never_increases _ _ _ _ _ _ _ _ Heq).
  - exfalso. revert Heq. vm_compute. discriminate.
Defined.

(** X23. A lowest validation loss of [nan] (or of minus infinity) freezes
    the best checkpoint: no evaluation changes the run parameters. *)
Theorem nan_lowest_val_loss_blocks_updates {model_state : Type}
    (state_dict : model_state) (train_losses_dict : list (string * Qc))
    (cfg : run_configurations) (val_dl : list val_batch)
    (lm_val_dl : list lm_batch) (rp rp' : run_params model_state)
    (train' : list (string * Qc)) :
  lowest_val_loss rp = TNaN ∨ lowest_val_loss rp = TNegInf →
  evaluate_model state_dict train_losses_dict cfg val_dl lm_val_dl rp
  = Some (train', rp') →
  rp' = rp.
Proof.
  intros Hlow H.
  destruct (evaluate_model_inv _ _ _ _ _ _ _ _ H) as (_ & _ & _ & _ & _ & _ & ->).
  by destruct Hlow as [-> | ->].
Qed.

Lemma nan_lowest_val_loss_blocks_updates_witness :
  let rp := RunParams (model_state := nat) 7 10 10 "weights" TNaN None None None in
  ∃ train',
    evaluate_model 0 [("total_loss", 1%Qc)] scenario_cfg
      [batch_with_loss 2 1; batch_with_loss 1 1] [] rp
    = Some (train', rp).
Proof.
  cbn zeta.
  destruct (evaluate_model 0 [("total_loss", 1%Qc)] scenario_cfg
              [batch_with_loss 2 1; batch_with_loss 1 1] []
              (RunParams (model_state := nat) 7 10 10 "weights" TNaN
                 None None None))
    as [[train' rp']|] eqn:Heq.
  - exists train'. do 2 f_equal.
    apply (nan_lowest_val_loss_blocks_updates 0 [("total_loss", 1%Qc)]
             scenario_cfg [batch_with_loss 2 1; batch_with_loss 1 1] []
             (RunParams 7 10 10 "weights" TNaN None None None) rp' train');
      [by left|exact Heq].
  - exfalso. revert Heq. vm_compute. discriminate.
Defined.

(** ** Calls of the precision and recall objects *)

(** The numbers of calls the eight precision and recall objects of a state
    have received. *)
Lemma foldl_val_step_calls (val_dl : list val_batch) (st : val_state) :
  let calls (st : val_state) : list nat :=
    [length (precision (rs_all (vs_region_selection_scores st)));
     length (recall (rs_all (vs_region_selection_scores st)));
     length (precision (rs_normal (vs_region_selection_scores st)));
     length (recall (rs_normal (vs_region_selection_scores st)));
     length (precision (rs_abnormal (vs_region_selection_scores st)));
     length (recall (rs_abnormal (vs_region_selection_scores st)));
     length (precision (vs_region_abnormal_scores st));
     length (recall (vs_region_abnormal_scores st))] in
  calls (foldl val_step st val_dl) = map (λ c, c + length val_dl) (calls st).
Proof.
  cbn zeta. revert st. induction val_dl as [|b val_dl IH]; intros st.
  - cbn [foldl length map]. by rewrite !Nat.add_0_r.
  - cbn [foldl]. rewrite IH.
    cbn [val_step vs_region_selection_scores vs_region_abnormal_scores
         update_region_selection_metrics update_region_abnormal_metrics
         rs_all rs_normal rs_abnormal pr_update precision recall metric_call map].
    unfold metric_call. rewrite !length_app. cbn [length].
    repeat (apply (f_equal2 cons); [lia|]). reflexivity.
Qed.

(** X24. In a pass, each precision and each recall object (region
    selection for all, normal and abnormal regions, and abnormality) is
    called exactly once per batch, whatever the batch holds: when the pass
    returns, each of them has received as many calls as the loader has
    batches. *)
Theorem metrics_called_once_per_batch (val_dl : list val_batch) :
  val_dl ≠ [] →
  ∃ res,
    get_val_losses_and_other_metrics val_dl = Some res
    ∧ [length (precision (rs_all (vr_region_selection_scores res)));
       length (recall (rs_all (vr_region_selection_scores res)));
       length (precision (rs_normal (vr_region_selection_scores res)));
       length (recall (rs_normal (vr_region_selection_scores res)));
       length (precision (rs_abnormal (vr_region_selection_scores res)));
       length (recall (rs_abnormal (vr_region_selection_scores res)));
       length (precision (vr_region_abnormal_scores res));
       length (recall (vr_region_abnormal_scores res))]
      = replicate 8 (length val_dl).
Proof.
  intros Hne. rewrite get_val_losses_and_other_metrics_nonempty by done.
  cbn zeta. eexists. split; [reflexivity|].
  cbn [vr_region_selection_scores vr_region_abnormal_scores].
  exact (foldl_val_step_calls val_dl val_state_init).
Qed.

Lemma metrics_called_once_per_batch_witness :
  ∃ res,
    get_val_losses_and_other_metrics [batch_with_loss 2 1; batch_with_loss 1 1]
    = Some res
    ∧ [length (precision (rs_all (vr_region_selection_scores res)));
       length (recall (rs_all (vr_region_selection_scores res)));
       length (precision (rs_normal (vr_region_selection_scores res)));
       length (recall (rs_normal (vr_region_selection_scores res)));
       length (precision (rs_abnormal (vr_region_selection_scores res)));
       length (recall (rs_abnormal (vr_region_selection_scores res)));
       length (precision (vr_region_abnormal_scores res));
       length (recall (vr_region_abnormal_scores res))]
      = replicate 8 (length [batch_with_loss 2 1; batch_with_loss 1 1]).
Proof.
  apply (metrics_called_once_per_batch [batch_with_loss 2 1; batch_with_loss 1 1]).
  discriminate.
Defined.

(** ** Which boxes are called predicted *)

(** X25. The detector scores do not depend on which of the two box tensors
    is called predicted and which ground truth: swapping them in an update
    gives the same three sums. *)
Theorem detector_scores_symmetric_in_boxes (s : obj_detector_scores)
    (top_region_boxes gt_boxes : list (list box))
    (class_detected : list (list bool)) :
  update_object_detector_metrics s gt_boxes top_region_boxes class_detected
  = update_object_detector_metrics s top_region_boxes gt_boxes class_detected.
Proof.
  unfold update_object_detector_metrics.
  by rewrite compute_intersection_and_union_area_per_region_comm.
Qed.

(** ** The text under a plotted image *)

(** X26. Building the text of a region under a plotted image does not
    raise when the generated sentences are those of the selected regions of
    the batch in row-major order: for every region of every image of the
    batch, selected or not, [update_region_set_text] returns a text that
    extends the text so far. *)
Theorem update_region_set_text_returns (n : nat) (region_set_text color : string)
    (reference_sentences_img : list string)
    (sentences : list (list string)) (selected_regions : list (list bool))
    (num_img region_index : nat) :
  shape n sentences → shape n selected_regions →
  length reference_sentences_img = num_regions →
  num_img < n → region_index < num_regions →
  ∃ added,
    update_region_set_text region_set_text color reference_sentences_img
      (tensor_index sentences selected_regions) region_index selected_regions
      num_img
    = Some (region_set_text +:+ added).
Proof.
  intros Hs Hsel Href Hi Hr. unfold update_region_set_text.
  destruct (lookup_lt_is_Some_2 reference_sentences_img region_index)
    as [ref ->]; [lia|].
  cbn [mbind option_bind].
  destruct (lookup_lt_is_Some_2 selected_regions num_img) as [row Hrow];
    [by rewrite (shape_length n)|].
  destruct (lookup_lt_is_Some_2 sentences num_img) as [srow Hsrow];
    [by rewrite (shape_length n)|].
  destruct (lookup_lt_is_Some_2 row region_index) as [b Hb];
    [by rewrite (Forall_lookup_1 _ _ _ _ (shape_rows _ _ Hsel) Hrow)|].
  destruct (lookup_lt_is_Some_2 srow region_index) as [x Hx];
    [by rewrite (Forall_lookup_1 _ _ _ _ (shape_rows _ _ Hs) Hsrow)|].
  rewrite Hrow. cbn [mbind option_bind]. rewrite Hb. cbn [mbind option_bind].
  destruct b; cbn [negb].
  - rewrite (generated_sentence_lookup n sentences selected_regions
               num_img region_index row srow x) by done.
    cbn [mbind option_bind]. eexists. rewrite !string_app_assoc. reflexivity.
  - eexists. rewrite !string_app_assoc. reflexivity.
Qed.

Lemma update_region_set_text_returns_witness :
  ∃ added,
    update_region_set_text "" "b" (reference_row ["#"; "opacity noted"])
      (tensor_index [reference_row ["a"; "b"; "c"]; reference_row ["d"; "e"]]
         [flags_at [0; 2]; flags_at [1]])
      1 [flags_at [0; 2]; flags_at [1]] 1
    = Some ("" +:+ added).
Proof.
  apply (update_region_set_text_returns 2 "" "b"
           (reference_row ["#"; "opacity noted"])
           [reference_row ["a"; "b"; "c"]; reference_row ["d"; "e"]]
           [flags_at [0; 2]; flags_at [1]] 1 1);
    try solve_shape; try reflexivity; unfold num_regions; lia.
Defined.
